(** * Monte Carlo estimation of pi: sequential and fan-out/fan-in versions

    A shallow embedding of [main.go] and the properties its specification
    states.

    - Go's [int] and [int64] are [Z] with the 64-bit two's-complement
      wrap-around written out ([GoInt]); [int] is taken to be 64 bits wide.
    - Go's [float64] is Rocq's primitive binary64 float: round to nearest
      even, every operation rounded on its own (no fused multiply-add).
    - [math/rand] is an interface ([RandLib]): a generator is a state and
      [Float64] a function from a state to a value and the next state.
    - What the program reads from its environment (clock values, measured
      durations) is an argument of the function that reads it.
    - A counted [for] loop tests its guard before every iteration and runs
      on fuel ([for_loop]); a call returns an [Outcome]: a value, a panic,
      or exhausted fuel.
    - The goroutines of one [parallelPi] call are a transition system over
      the buffered result channel ([Fanin]); [parallelPi] itself is given
      as a function that receives the results in launch order, and the
      transition system shows that the order does not matter. *)

From Stdlib Require Import String Ascii ZArith List Lia Bool Floats Permutation.
From Stdlib Require Uint63.
Import ListNotations.
Open Scope Z_scope.

(* Decimal float literals stand for the nearest binary64 value, as in Go. *)
Set Warnings "-inexact-float".

(** ** Go integers *)

Module GoInt.

Definition min_int : Z := - 2 ^ 63.
Definition max_int : Z := 2 ^ 63 - 1.

Definition in_range (z : Z) : Prop := min_int <= z <= max_int.

(** Two's-complement wrap-around of a 64-bit result. *)
Definition wrap (z : Z) : Z := (z + 2 ^ 63) mod 2 ^ 64 - 2 ^ 63.

Definition add (a b : Z) : Z := wrap (a + b).

(** [a / b] and [a % b] for [b <> 0]: truncation toward zero; the most
    negative value divided by [-1] wraps. *)
Definition quot (a b : Z) : Z := wrap (Z.quot a b).
Definition rem (a b : Z) : Z := Z.rem a b.

End GoInt.

(** ** Go float64 *)

(** [float64(n)] for an integer [n]: the nearest binary64 value, ties to
    even (exact for every [|n| <= 2^53]). *)
Definition float64 (n : Z) : float :=
  SF2Prim (binary_normalize prec emax n 0 false).

(** ** Outcomes of a call *)

Inductive Panic : Type :=
| DivideByZero     (* runtime error: integer divide by zero *)
| MakechanSize     (* makechan: size out of range *)
| SendOnClosed.    (* send on closed channel *)

Inductive Outcome (A : Type) : Type :=
| Done (a : A)
| Panicked (p : Panic)
| OutOfFuel.
Arguments Done {A} a.
Arguments Panicked {A} p.
Arguments OutOfFuel {A}.

Definition bind {A B} (m : Outcome A) (k : A -> Outcome B) : Outcome B :=
  match m with
  | Done a => k a
  | Panicked p => Panicked p
  | OutOfFuel => OutOfFuel
  end.

Notation "x <- m ;; k" := (bind m (fun x => k))
  (at level 61, m at next level, right associativity).

(** Exit status of the process: 0 on normal return from [main], 2 when the
    Go runtime aborts on a panic. *)
Definition exit_status {A} (o : Outcome A) : option Z :=
  match o with
  | Done _ => Some 0
  | Panicked _ => Some 2
  | OutOfFuel => None
  end.

(** ** Counted loops

    [for i := start; i < bound; i++ { s = body i s }].  The guard is tested
    before every iteration as in the source; [fuel] bounds the number of
    iterations the model is willing to run. *)
Fixpoint for_loop {St : Type} (fuel : nat) (bound : Z) (body : Z -> St -> St)
         (i : Z) (s : St) : Outcome (Z * St) :=
  if i <? bound then
    match fuel with
    | O => OutOfFuel
    | S k => for_loop k bound body (GoInt.add i 1) (body i s)
    end
  else Done (i, s).

(** The indices [start, start+1, ..., start+n-1]. *)
Fixpoint indices (start : Z) (n : nat) : list Z :=
  match n with
  | O => []
  | S k => start :: indices (start + 1) k
  end.

(** ** Random generators

    [math/rand] is used through two entry points: the package-level
    generator ([rand.Seed], [rand.Float64]) in [sequentialPi] and a private
    generator per goroutine ([rand.New(rand.NewSource(seed))], [r.Float64])
    in [worker].  A generator is a deterministic state machine; its
    algorithm is not part of this repository. *)
Class RandLib : Type := {
  Rand : Type;
  (** state of the package-level generator after [rand.Seed(seed)] *)
  Seed : Z -> Rand;
  (** [rand.New(rand.NewSource(seed))] *)
  New : Z -> Rand;
  (** one call of [Float64]: the value drawn and the generator afterwards *)
  Float64 : Rand -> float * Rand
}.

(** ** The sampling loops *)

(** The test both loops apply to a sample: [x*x+y*y <= 1.0]. *)
Definition inside (x y : float) : bool := (x * x + y * y <=? 1)%float.

Section Sampling.

Context {R : RandLib}.

(** State of a sampling loop besides the counter [i]. *)
Record Tally : Type := mkTally {
  insideCircle : Z;
  gen : Rand
}.

(** Body of the loop of [sequentialPi] (lines 19-25). *)
Definition sequentialPi_body (_ : Z) (t : Tally) : Tally :=
  let (x, g1) := Float64 (gen t) in
  let (y, g2) := Float64 g1 in
  if (x * x + y * y <=? 1)%float
  then mkTally (GoInt.add (insideCircle t) 1) g2
  else mkTally (insideCircle t) g2.

(** [sequentialPi(numPoints)]; [now] is what [time.Now().UnixNano()]
    returned.  The state after the loop is kept next to the result. *)
Definition sequentialPi_loop (now numPoints : Z) : Outcome (Z * Tally) :=
  for_loop (Z.to_nat numPoints) numPoints sequentialPi_body 0
           (mkTally 0 (Seed now)).

Definition sequentialPi (now numPoints : Z) : Outcome float :=
  r <- sequentialPi_loop now numPoints ;;
  Done (4 * float64 (insideCircle (snd r)) / float64 numPoints)%float.

(** Body of the loop of [worker] (lines 43-48). *)
Definition worker_body (_ : Z) (t : Tally) : Tally :=
  let (x, g1) := Float64 (gen t) in
  let (y, g2) := Float64 g1 in
  if (x * x + y * y <=? 1)%float
  then mkTally (GoInt.add (insideCircle t) 1) g2
  else mkTally (insideCircle t) g2.

(** Seed of a worker's generator (line 38): an [int64] sum. *)
Definition worker_seed (now numPoints : Z) : Z := GoInt.add now numPoints.

Definition worker_loop (now numPoints : Z) : Outcome (Z * Tally) :=
  for_loop (Z.to_nat numPoints) numPoints worker_body 0
           (mkTally 0 (New (worker_seed now numPoints))).

(** [worker(numPoints, resultChan)] up to the send: the value it sends. *)
Definition worker (now numPoints : Z) : Outcome Z :=
  r <- worker_loop now numPoints ;;
  Done (insideCircle (snd r)).

End Sampling.

(** ** The parallel estimator *)

(** Body of the launch loop of [parallelPi] (lines 70-81); the state is the
    list of partition sizes handed to the goroutines launched so far. *)
Definition launch_body (pointsPerWorker remainder : Z) (i : Z)
           (launched : list Z) : list Z :=
  let currentPoints := pointsPerWorker in
  let currentPoints :=
    if i <? remainder then GoInt.add currentPoints 1 else currentPoints in
  launched ++ [currentPoints].

(** Lines 63-81: the division, the channel allocation and the launch loop.
    Returns the partition sizes in launch order.  [make] panics on a
    negative size; the limits of the allocator (a channel or a number of
    goroutines beyond what memory holds) are outside the model. *)
Definition partitions (totalPoints numThreads : Z) : Outcome (list Z) :=
  if numThreads =? 0 then Panicked DivideByZero else
  let pointsPerWorker := GoInt.quot totalPoints numThreads in
  let remainder := GoInt.rem totalPoints numThreads in
  if numThreads <? 0 then Panicked MakechanSize else
  r <- for_loop (Z.to_nat numThreads) numThreads
                (launch_body pointsPerWorker remainder) 0 [] ;;
  Done (snd r).

(** What one call of [parallelPi] reads from its environment: the clock
    value each worker sees when it builds its seed (indexed by launch
    order) and the duration [time.Since(startTime)] returns. *)
Record ParEnv : Type := mkParEnv {
  clock : nat -> Z;
  elapsed : Z
}.

Section Parallel.

Context {R : RandLib}.

(** The values the workers send, in launch order. *)
Fixpoint run_workers (clock : nat -> Z) (k : nat) (parts : list Z)
  : Outcome (list Z) :=
  match parts with
  | [] => Done []
  | pts :: rest =>
      c <- worker (clock k) pts ;;
      cs <- run_workers clock (S k) rest ;;
      Done (c :: cs)
  end.

(** The receive loop (lines 90-93) over the values in the order in which
    they leave the channel. *)
Definition collect (arrivals : list Z) : Z :=
  fold_left (fun totalInside count => GoInt.add totalInside count)
            arrivals 0.

(** Line 98. *)
Definition estimate (totalInside totalPoints : Z) : float :=
  (4 * float64 totalInside / float64 totalPoints)%float.

Definition worker_counts (totalPoints numThreads : Z) (e : ParEnv)
  : Outcome (list Z) :=
  parts <- partitions totalPoints numThreads ;;
  run_workers (clock e) 0 parts.

(** [parallelPi(totalPoints, numThreads)] with the results received in
    launch order; [Fanin] below covers every other order. *)
Definition parallelPi (totalPoints numThreads : Z) (e : ParEnv)
  : Outcome (float * Z) :=
  counts <- worker_counts totalPoints numThreads e ;;
  let totalInside := collect counts in
  Done (estimate totalInside totalPoints, elapsed e).

End Parallel.

(** ** Fan-in over the result channel

    The goroutines of one [parallelPi] call after the launch loop: the
    workers (each holds the count it computed, sends it, then runs its
    deferred [wg.Done()]), the closer ([wg.Wait()] then [close]), and the
    caller's [for count := range resultChan] loop.  Any interleaving of
    these is a sequence of [step]s. *)
Module Fanin.

Record State : Type := mkState {
  unsent : list Z;     (* counts of the workers that have not sent yet *)
  undone : nat;        (* workers past the send, before wg.Done() *)
  buf : list Z;        (* contents of resultChan, oldest first *)
  cap : Z;             (* capacity of resultChan *)
  closed : bool;       (* close(resultChan) has run *)
  totalInside : Z;
  ranging : bool       (* the caller is still in the range loop *)
}.

Inductive Config : Type :=
| Running (s : State)
| Crashed (p : Panic).

Definition init (counts : list Z) (numThreads : Z) : State :=
  mkState counts 0 [] numThreads false 0 true.

Inductive step : Config -> Config -> Prop :=
| step_send l1 c l2 n b k t r :
    Z.of_nat (length b) < k ->
    step (Running (mkState (l1 ++ c :: l2) n b k false t r))
         (Running (mkState (l1 ++ l2) (S n) (b ++ [c]) k false t r))
| step_send_closed l1 c l2 n b k t r :
    step (Running (mkState (l1 ++ c :: l2) n b k true t r))
         (Crashed SendOnClosed)
| step_done l n b k cl t r :
    step (Running (mkState l (S n) b k cl t r))
         (Running (mkState l n b k cl t r))
| step_close b k t r :
    step (Running (mkState [] O b k false t r))
         (Running (mkState [] O b k true t r))
| step_recv l n c b k cl t :
    step (Running (mkState l n (c :: b) k cl t true))
         (Running (mkState l n b k cl (GoInt.add t c) true))
| step_exit l n k t :
    step (Running (mkState l n [] k true t true))
         (Running (mkState l n [] k true t false)).

(** [run n c c']: an execution of [n] steps from [c] to [c']. *)
Inductive run : nat -> Config -> Config -> Prop :=
| run_nil c : run O c c
| run_cons n c1 c2 c3 : step c1 c2 -> run n c2 c3 -> run (S n) c1 c3.

(** Each step strictly decreases this measure. *)
Definition measure (s : State) : nat :=
  3 * length (unsent s) + undone s + length (buf s)
  + (if closed s then 0 else 1) + (if ranging s then 1 else 0).

End Fanin.

(** ** Formatting ([fmt.Sprintf] with the verbs [%d] and [%.Nf]) *)

Module Fmt.

Open Scope string_scope.
Open Scope Z_scope.

Definition digit (d : Z) : ascii := ascii_of_nat (48 + Z.to_nat d).
Arguments digit : simpl never.

(** The last [k] decimal digits of [n], most significant first. *)
Fixpoint fixed_digits (k : nat) (n : Z) : string :=
  match k with
  | O => ""
  | S k' => fixed_digits k' (n / 10) ++ String (digit (n mod 10)) ""
  end.

(** The decimal digits of [n >= 0] without leading zeros. *)
Fixpoint digits_fuel (fuel : nat) (n : Z) : string :=
  match fuel with
  | O => String (digit (n mod 10)) ""
  | S f =>
      if n <? 10 then String (digit n) ""
      else digits_fuel f (n / 10) ++ String (digit (n mod 10)) ""
  end.

Definition digits (n : Z) : string := digits_fuel (Z.to_nat (Z.log2 n)) n.

(** [%d] *)
Definition format_d (z : Z) : string :=
  if z <? 0 then "-" ++ digits (- z) else digits z.

(** [num / den] rounded to the nearest integer, ties to even
    ([num >= 0], [den > 0]). *)
Definition round_half_even (num den : Z) : Z :=
  let q := num / den in
  let r := num mod den in
  if 2 * r <? den then q
  else if den <? 2 * r then q + 1
  else if Z.even q then q else q + 1.

(** [m * 2^e * 10^prec] rounded to an integer. *)
Definition scaled (prec : nat) (m : positive) (e : Z) : Z :=
  if 0 <=? e then Zpos m * 2 ^ e * 10 ^ Z.of_nat prec
  else round_half_even (Zpos m * 10 ^ Z.of_nat prec) (2 ^ (- e)).

(** [q / 10^prec] written with [prec] digits after the point. *)
Definition fixed_point (prec : nat) (q : Z) : string :=
  match prec with
  | O => digits q
  | _ => digits (q / 10 ^ Z.of_nat prec) ++ "." ++ fixed_digits prec q
  end.

Definition sign (s : bool) : string := if s then "-" else "".

(** [%.Nf] of a [float64]: the exact value rounded to [prec] decimals,
    ties to even. *)
Definition format_f (prec : nat) (v : float) : string :=
  match Prim2SF v with
  | S754_nan => "NaN"
  | S754_infinity s => if s then "-Inf" else "+Inf"
  | S754_zero s => sign s ++ fixed_point prec 0
  | S754_finite s m e => sign s ++ fixed_point prec (scaled prec m e)
  end.

Definition is_digit (a : ascii) : bool :=
  let n := nat_of_ascii a in (48 <=? n)%nat && (n <=? 57)%nat.

Fixpoint all_digits (s : string) : bool :=
  match s with
  | EmptyString => true
  | String a r => is_digit a && all_digits r
  end.



End Fmt.

(** ** The driver *)

Definition TotalPoints : Z := 1000000.

Definition threadCounts : list Z := [2; 4; 8; 16; 32; 64].

(** [float64(d.Microseconds())/1000.0] for a [time.Duration] [d]
    (an [int64] count of nanoseconds). *)
Definition milliseconds (d : Z) : float :=
  (float64 (GoInt.quot d 1000) / 1000)%float.

(** What [main] reads from its environment. *)
Record Env : Type := mkEnv {
  seqNow : Z;             (* the clock value [sequentialPi] seeds from *)
  seqElapsed : Z;         (* [time.Since(startTimeSeq)] *)
  parEnv : nat -> ParEnv  (* for the k-th call of [parallelPi] *)
}.

Module Report.

Open Scope string_scope.
Open Scope Z_scope.

Definition nl : string := String (ascii_of_nat 10) "".

Definition title : string :=
  "**Звіт про залежність часу обчислення від кількості потоків:**"
  ++ nl ++ nl.

Definition header : string :=
  "| Кількість Потоків | Отримане PI | Час Обчислення (мс) |" ++ nl.

(** Line 118. *)
Definition seq_row (piSeq : float) (elapsedTimeSeq : Z) : string :=
  "| 1 (Послідовно)   | " ++ Fmt.format_f 6 piSeq ++ "   | "
  ++ Fmt.format_f 2 (milliseconds elapsedTimeSeq) ++ " |" ++ nl.

(** Line 129. *)
Definition par_row (numThreads : Z) (piPar : float) (elapsedTimePar : Z)
  : string :=
  "| " ++ Fmt.format_d numThreads ++ "                  | "
  ++ Fmt.format_f 6 piPar ++ "   | "
  ++ Fmt.format_f 2 (milliseconds elapsedTimePar) ++ " |" ++ nl.

End Report.

Section Driver.

Context {R : RandLib}.

(** [for _, numThreads := range threadCounts] (lines 122-130); [k] counts
    the calls of [parallelPi] made so far. *)
Fixpoint range_threads (env : Env) (k : nat) (counts : list Z)
         (report : string) : Outcome string :=
  match counts with
  | [] => Done report
  | numThreads :: rest =>
      r <- parallelPi TotalPoints numThreads (parEnv env k) ;;
      let (piPar, elapsedTimePar) := r in
      range_threads env (S k) rest
        (report ++ Report.par_row numThreads piPar elapsedTimePar)%string
  end.

(** [main]: the value of [report] printed at line 133.  The progress
    lines printed before it do not feed into it. *)
Definition main (env : Env) : Outcome string :=
  piSeq <- sequentialPi (seqNow env) TotalPoints ;;
  let elapsedTimeSeq := seqElapsed env in
  let report := Report.title in
  let report := (report ++ Report.header)%string in
  let report := (report ++ Report.seq_row piSeq elapsedTimeSeq)%string in
  range_threads env 0 threadCounts report.

End Driver.

(** ** A small generator for running the model on concrete inputs *)

Module Lcg.

Definition next (g : Z) : Z := (g * 1103515245 + 12345) mod 2 ^ 31.

(** A linear congruential generator; draws are [k/1024] for [k < 1024]. *)
#[export] Instance lib : RandLib := {
  Rand := Z;
  Seed := fun s => s mod 2 ^ 31;
  New := fun s => s mod 2 ^ 31;
  Float64 := fun g => ((float64 ((next g / 2 ^ 16) mod 1024) / 1024)%float, next g)
}.

End Lcg.

(** ** Vocabulary of the statements *)

Section Samples.

Context {R : RandLib}.

(** The first [n] samples a generator yields: each takes two draws. *)
Fixpoint samples (n : nat) (g : Rand) : list (float * float) :=
  match n with
  | O => []
  | S k =>
      let (x, g1) := Float64 g in
      let (y, g2) := Float64 g1 in
      (x, y) :: samples k g2
  end.

(** The generator after [n] draws. *)
Fixpoint advance (n : nat) (g : Rand) : Rand :=
  match n with
  | O => g
  | S k => advance k (snd (Float64 g))
  end.

End Samples.

(** The seeds the workers launched with partitions [parts] pass to
    [rand.NewSource], in launch order; worker [k] reads [clock k]. *)
Definition worker_seeds (clock : nat -> Z) (parts : list Z) : list Z :=
  map (fun kp => worker_seed (clock (fst kp)) (snd kp))
      (combine (seq 0 (length parts)) parts).


(** Sum of a list of counts. *)
Definition sumZ (l : list Z) : Z := fold_right Z.add 0 l.

(** Size of the partition of worker [j]: one extra sample for each of the
    first [N mod W] workers. *)
Definition share (N W j : Z) : Z :=
  if j <? N mod W then N / W + 1 else N / W.

(** How many of the samples are classified inside. *)
Definition hits (l : list (float * float)) : Z :=
  Z.of_nat (length (filter (fun p => inside (fst p) (snd p)) l)).

(** What holds in every reachable state: no count is lost or added
    twice, the buffer never fills up, the channel is closed only after
    every worker is done, and the caller leaves the loop only on a
    closed, drained channel. *)
Definition Inv (counts : list Z) (s : Fanin.State) : Prop :=
  sumZ (Fanin.unsent s) + sumZ (Fanin.buf s) + Fanin.totalInside s = sumZ counts
  /\ Forall (fun c => 0 <= c) (Fanin.unsent s)
  /\ Forall (fun c => 0 <= c) (Fanin.buf s)
  /\ 0 <= Fanin.totalInside s
  /\ Z.of_nat (length (Fanin.unsent s) + length (Fanin.buf s)) <= Fanin.cap s
  /\ (Fanin.closed s = true -> Fanin.unsent s = [] /\ Fanin.undone s = O)
  /\ (Fanin.ranging s = false -> Fanin.buf s = [] /\ Fanin.closed s = true).

(** Concatenation of the rows of a table. *)
Definition join (rows : list string) : string :=
  fold_right String.append EmptyString rows.

(** One parallel entry of the report: worker count, estimate, duration. *)
Definition render_par (row : Z * float * Z) : string :=
  Report.par_row (fst (fst row)) (snd (fst row)) (snd row).

Section DriverVocabulary.

Context {R : RandLib}.

(** [row] is what the [k]-th call of [parallelPi] made by [main] returns. *)
Definition run_row (env : Env) (k : nat) (row : Z * float * Z) : Prop :=
  exists counts,
    worker_counts TotalPoints (fst (fst row)) (parEnv env k) = Done counts
    /\ 0 <= sumZ counts <= TotalPoints
    /\ snd (fst row) = estimate (sumZ counts) TotalPoints
    /\ snd row = elapsed (parEnv env k)
    /\ parallelPi TotalPoints (fst (fst row)) (parEnv env k)
       = Done (snd (fst row), snd row).

Fixpoint run_rows (env : Env) (k : nat) (rows : list (Z * float * Z)) : Prop :=
  match rows with
  | [] => True
  | row :: rest => run_row env k row /\ run_rows env (S k) rest
  end.

End DriverVocabulary.

(** ** Vocabulary of the further properties *)

(** [x] is finite and not zero, with sign [s] and absolute value in
    [[2^(lo-1), 2^hi)]. *)
Definition fin_between (s : bool) (lo hi : Z) (x : spec_float) : Prop :=
  match x with
  | S754_finite s' m e => s' = s /\ lo <= Zpos (digits2_pos m) + e <= hi
  | _ => False
  end.

Section WorkerVocabulary.

Context {R : RandLib}.

(** What the workers launched with partitions [parts] count: worker [k]
    draws its samples from the generator it seeds from [clock k]. *)
Fixpoint worker_hits (clock : nat -> Z) (k : nat) (parts : list Z) : list Z :=
  match parts with
  | [] => []
  | p :: rest =>
      hits (samples (Z.to_nat p) (New (worker_seed (clock k) p)))
      :: worker_hits clock (S k) rest
  end.

End WorkerVocabulary.

(** Occurrences of a character in a string. *)
Fixpoint count_char (a : ascii) (s : string) : nat :=
  match s with
  | EmptyString => O
  | String b r => ((if Ascii.eqb a b then 1 else 0) + count_char a r)%nat
  end.

(** ** Standard output *)

Section Stdout.

Context {R : RandLib}.

(** [fmt]'s rendering of a [time.Duration] under [%s]. *)
Variable durationString : Z -> string.

Open Scope string_scope.





End Stdout.

(** * Properties *)

(** ** Integers and counted loops *)

Lemma wrap_id z : GoInt.in_range z -> GoInt.wrap z = z.
Proof.
  unfold GoInt.in_range, GoInt.wrap, GoInt.min_int, GoInt.max_int. intros H.
  rewrite Z.mod_small; lia.
Qed.

Lemma wrap_in_range z : GoInt.in_range (GoInt.wrap z).
Proof.
  unfold GoInt.in_range, GoInt.wrap, GoInt.min_int, GoInt.max_int.
  pose proof (Z.mod_pos_bound (z + 2 ^ 63) (2 ^ 64) ltac:(lia)). lia.
Qed.

Lemma add_exact a b : GoInt.in_range (a + b) -> GoInt.add a b = a + b.
Proof. apply wrap_id. Qed.

Lemma max_int_value : GoInt.max_int = 9223372036854775807.
Proof. reflexivity. Qed.

Lemma min_int_value : GoInt.min_int = -9223372036854775808.
Proof. reflexivity. Qed.

Ltac int_range :=
  unfold GoInt.in_range in *; rewrite ?max_int_value, ?min_int_value in *.

(** A loop whose guard fails at once runs no iteration. *)
Lemma for_loop_skip {St} fuel bound (body : Z -> St -> St) i s :
  bound <= i -> for_loop fuel bound body i s = Done (i, s).
Proof.
  intros H. destruct fuel; simpl; destruct (Z.ltb_spec i bound); auto; lia.
Qed.

(** With enough fuel the loop runs the body once per index below the bound
    and stops with the counter at the bound. *)
Lemma for_loop_spec {St} (body : Z -> St -> St) bound :
  bound <= GoInt.max_int ->
  forall fuel i s,
    GoInt.min_int <= i <= bound ->
    (Z.to_nat (bound - i) <= fuel)%nat ->
    for_loop fuel bound body i s
    = Done (bound, fold_left (fun s j => body j s)
                             (indices i (Z.to_nat (bound - i))) s).
Proof.
  intros Hb. induction fuel as [|k IH]; intros i s Hi Hf.
  - assert (i = bound) by lia. subst i.
    rewrite for_loop_skip by lia. now rewrite Z.sub_diag.
  - destruct (Z.eq_dec i bound) as [->|Hne].
    + rewrite for_loop_skip by lia. now rewrite Z.sub_diag.
    + simpl. destruct (Z.ltb_spec i bound); [|lia].
      rewrite add_exact by (int_range; lia).
      rewrite IH by lia.
      replace (Z.to_nat (bound - i)) with (S (Z.to_nat (bound - (i + 1)))) by lia.
      reflexivity.
Qed.

Lemma indices_length start n : length (indices start n) = n.
Proof. revert start. induction n; simpl; intros; auto. Qed.

Lemma indices_snoc start n :
  indices start (S n) = indices start n ++ [start + Z.of_nat n].
Proof.
  revert start. induction n as [|n IH]; intros start.
  - simpl. now rewrite Z.add_0_r.
  - change (indices start (S (S n)))
      with (start :: indices (start + 1) (S n)).
    rewrite IH.
    replace (start + 1 + Z.of_nat n) with (start + Z.of_nat (S n)) by lia.
    reflexivity.
Qed.

(** ** The sampling loops *)

Section SamplingFacts.

Context {R : RandLib}.

Lemma samples_length n g : length (samples n g) = n.
Proof.
  revert g. induction n as [|n IH]; intros g; simpl; auto.
  destruct (Float64 g) as [x g1]. destruct (Float64 g1) as [y g2].
  simpl. now rewrite IH.
Qed.

Lemma hits_bounds l : 0 <= hits l <= Z.of_nat (length l).
Proof.
  unfold hits. pose proof (filter_length_le (fun p => inside (fst p) (snd p)) l).
  lia.
Qed.

Lemma hits_cons x y l :
  hits ((x, y) :: l) = (if inside x y then 1 else 0) + hits l.
Proof.
  unfold hits. simpl filter. simpl fst. simpl snd.
  destruct (inside x y); simpl length; lia.
Qed.

(** The two loops have the same body, which tests [inside]. *)
Lemma worker_body_eq : worker_body = sequentialPi_body.
Proof. reflexivity. Qed.

Lemma sequentialPi_body_step i t :
  sequentialPi_body i t =
  let (x, g1) := Float64 (gen t) in
  let (y, g2) := Float64 g1 in
  mkTally (if inside x y then GoInt.add (insideCircle t) 1 else insideCircle t) g2.
Proof.
  unfold sequentialPi_body, inside.
  destruct (Float64 (gen t)) as [x g1]. destruct (Float64 g1) as [y g2].
  now destruct (x * x + y * y <=? 1)%float.
Qed.

(** [n] iterations from a tally [c] draw [n] samples and add their hits;
    no increment overflows while [c + n] fits an [int]. *)
Lemma tally_fold n : forall i c g,
  0 <= c -> c + Z.of_nat n <= GoInt.max_int ->
  fold_left (fun t j => sequentialPi_body j t) (indices i n) (mkTally c g)
  = mkTally (c + hits (samples n g)) (advance (2 * n) g).
Proof.
  induction n as [|n IH]; intros i c g Hc Hn.
  - simpl. f_equal. unfold hits. simpl. lia.
  - replace (2 * S n)%nat with (S (S (2 * n))) by lia.
    cbn [indices fold_left samples advance].
    rewrite sequentialPi_body_step. cbn [gen insideCircle].
    destruct (Float64 g) as [x g1]. cbn [snd].
    destruct (Float64 g1) as [y g2]. cbn [snd].
    rewrite hits_cons.
    pose proof (hits_bounds (samples n g2)) as Hh. rewrite samples_length in Hh.
    destruct (inside x y).
    + rewrite add_exact by (int_range; lia).
      rewrite IH by lia. f_equal. lia.
    + rewrite IH by lia. f_equal.
  Qed.

(** The loop of either function, from any generator: it stops after
    exactly [numPoints] iterations. *)
Lemma sampling_loop numPoints g :
  0 <= numPoints <= GoInt.max_int ->
  for_loop (Z.to_nat numPoints) numPoints sequentialPi_body 0 (mkTally 0 g)
  = Done (numPoints,
          mkTally (hits (samples (Z.to_nat numPoints) g))
                  (advance (2 * Z.to_nat numPoints) g)).
Proof.
  intros H.
  rewrite for_loop_spec by (rewrite ?min_int_value; lia).
  rewrite Z.sub_0_r, tally_fold by lia. reflexivity.
Qed.

Lemma sampling_loop_empty numPoints g :
  numPoints <= 0 ->
  for_loop (Z.to_nat numPoints) numPoints sequentialPi_body 0 (mkTally 0 g)
  = Done (0, mkTally 0 g).
Proof. intros H. now apply for_loop_skip. Qed.

(** [worker] returns for every [int] argument, with a count between 0 and
    the number of samples it was asked for. *)
Lemma worker_total now numPoints :
  numPoints <= GoInt.max_int ->
  exists c, worker now numPoints = Done c /\ 0 <= c <= Z.max 0 numPoints.
Proof.
  intros H. unfold worker, worker_loop. rewrite worker_body_eq.
  destruct (Z.le_gt_cases numPoints 0) as [Hn|Hn].
  - rewrite sampling_loop_empty by assumption. simpl. exists 0.
    split; [reflexivity | lia].
  - rewrite sampling_loop by lia. simpl. eexists. split; [reflexivity|].
    pose proof (hits_bounds (samples (Z.to_nat numPoints)
                                     (New (worker_seed now numPoints)))) as Hh.
    rewrite samples_length in Hh. lia.
Qed.

End SamplingFacts.

(** ** Partitioning *)

Lemma sumZ_app l1 l2 : sumZ (l1 ++ l2) = sumZ l1 + sumZ l2.
Proof. induction l1 as [|a l IH]; simpl; [reflexivity | rewrite IH; lia]. Qed.

Lemma nth_indices n : forall start k d,
  (k < n)%nat -> nth k (indices start n) d = start + Z.of_nat k.
Proof.
  induction n as [|n IH]; intros start k d Hk; [lia|].
  destruct k as [|k]; simpl; [lia|]. rewrite IH by lia. lia.
Qed.

Lemma in_indices n : forall start j,
  In j (indices start n) -> start <= j < start + Z.of_nat n.
Proof.
  induction n as [|n IH]; intros start j; simpl; [tauto|].
  intros [<-|H%IH]; lia.
Qed.

Lemma launch_fold pointsPerWorker remainder n : forall i launched,
  fold_left (fun l j => launch_body pointsPerWorker remainder j l)
            (indices i n) launched
  = launched ++ map (fun j => if j <? remainder
                              then GoInt.add pointsPerWorker 1
                              else pointsPerWorker) (indices i n).
Proof.
  induction n as [|n IH]; intros i launched; simpl.
  - now rewrite app_nil_r.
  - rewrite IH. unfold launch_body. now rewrite <- app_assoc.
Qed.

(** For a non-negative total and at least one worker, neither the division
    nor the increment of [currentPoints] wraps. *)
Lemma partitions_spec N W :
  0 <= N <= GoInt.max_int -> 1 <= W <= GoInt.max_int ->
  partitions N W = Done (map (share N W) (indices 0 (Z.to_nat W))).
Proof.
  intros HN HW. unfold partitions.
  destruct (Z.eqb_spec W 0); [lia|].
  destruct (Z.ltb_spec W 0); [lia|].
  rewrite for_loop_spec by (rewrite ?min_int_value; lia).
  rewrite Z.sub_0_r, launch_fold. cbn [bind snd app]. f_equal.
  unfold GoInt.quot, GoInt.rem.
  rewrite Z.quot_div_nonneg, Z.rem_mod_nonneg by lia.
  pose proof (Z.div_mod N W ltac:(lia)) as Hdm.
  pose proof (Z.mod_pos_bound N W ltac:(lia)) as Hm.
  assert (0 <= N / W) as Hq by (apply Z.div_pos; lia).
  assert (N / W <= N) as Hq'.
  { apply Z.div_le_upper_bound; [lia|].
    rewrite <- (Z.mul_1_l N) at 1. apply Z.mul_le_mono_nonneg_r; lia. }
  rewrite wrap_id by (int_range; lia).
  apply map_ext_in. intros j Hj%in_indices. unfold share.
  destruct (Z.ltb_spec j (N mod W)); [|reflexivity].
  apply add_exact. int_range.
  assert (N / W < N); [|lia].
  assert (1 * (N / W) <= W * (N / W)) by (apply Z.mul_le_mono_nonneg_r; lia).
  lia.
Qed.

Lemma sum_shares q r n : forall start,
  sumZ (map (fun j => if j <? r then q + 1 else q) (indices start n))
  = Z.of_nat n * q + Z.max 0 (Z.min (start + Z.of_nat n) r - start).
Proof.
  induction n as [|n IH]; intros start.
  - simpl. lia.
  - cbn [indices map sumZ fold_right]. fold (sumZ (map (fun j => if j <? r then q + 1 else q) (indices (start + 1) n))).
    rewrite IH. destruct (Z.ltb_spec start r); nia.
Qed.

Lemma partitions_sum N W :
  0 <= N -> 1 <= W ->
  sumZ (map (share N W) (indices 0 (Z.to_nat W))) = N.
Proof.
  intros HN HW. unfold share. rewrite sum_shares.
  pose proof (Z.div_mod N W ltac:(lia)) as Hdm.
  pose proof (Z.mod_pos_bound N W ltac:(lia)) as Hm.
  rewrite Z2Nat.id by lia. lia.
Qed.

Lemma share_bounds N W j :
  0 <= N -> 1 <= W -> 0 <= j -> 0 <= share N W j <= N.
Proof.
  intros HN HW Hj. unfold share.
  pose proof (Z.div_mod N W ltac:(lia)) as Hdm.
  pose proof (Z.mod_pos_bound N W ltac:(lia)) as Hm.
  assert (0 <= N / W) as Hq by (apply Z.div_pos; lia).
  assert (1 * (N / W) <= W * (N / W)) by (apply Z.mul_le_mono_nonneg_r; lia).
  destruct (Z.ltb_spec j (N mod W)); lia.
Qed.

(** [parallelPi] gets past the division, the channel allocation and the
    launch loop for every [int] total and every positive worker count. *)
Lemma partitions_total N W :
  1 <= W <= GoInt.max_int ->
  exists parts, partitions N W = Done parts
                /\ length parts = Z.to_nat W
                /\ Forall GoInt.in_range parts.
Proof.
  intros HW. unfold partitions.
  destruct (Z.eqb_spec W 0); [lia|].
  destruct (Z.ltb_spec W 0); [lia|].
  rewrite for_loop_spec by (rewrite ?min_int_value; lia).
  rewrite Z.sub_0_r, launch_fold. cbn [bind snd app].
  eexists. split; [reflexivity|]. split.
  - now rewrite length_map, indices_length.
  - apply Forall_map, Forall_forall. intros j _.
    destruct (j <? _); apply wrap_in_range.
Qed.

(** ** Aggregation *)

Lemma sumZ_perm l1 l2 : Permutation l1 l2 -> sumZ l1 = sumZ l2.
Proof. induction 1; simpl; lia. Qed.

Lemma sumZ_nonneg l : Forall (fun c => 0 <= c) l -> 0 <= sumZ l.
Proof. induction 1; simpl; lia. Qed.

(** The receive loop adds without wrapping while the sum fits an [int]. *)
Lemma fold_add_exact l : forall acc,
  0 <= acc -> Forall (fun c => 0 <= c) l -> acc + sumZ l <= GoInt.max_int ->
  fold_left (fun totalInside count => GoInt.add totalInside count) l acc
  = acc + sumZ l.
Proof.
  induction l as [|c l IH]; intros acc Ha Hl Hs; simpl.
  - lia.
  - inversion Hl as [|? ? Hc Hl']; subst. simpl in Hs.
    pose proof (sumZ_nonneg l Hl').
    rewrite add_exact by (int_range; lia).
    rewrite IH; try assumption; lia.
Qed.

Section ParallelFacts.

Context {R : RandLib}.

Lemma collect_exact arrivals :
  Forall (fun c => 0 <= c) arrivals -> sumZ arrivals <= GoInt.max_int ->
  collect arrivals = sumZ arrivals.
Proof. intros H1 H2. unfold collect. rewrite fold_add_exact; lia || auto. Qed.

(** Every worker returns, with a count within its partition. *)
Lemma run_workers_total clock parts : forall k,
  Forall GoInt.in_range parts ->
  exists counts, run_workers clock k parts = Done counts
                 /\ Forall2 (fun p c => 0 <= c <= Z.max 0 p) parts counts.
Proof.
  induction parts as [|p parts IH]; intros k Hp; simpl.
  - exists []. split; [reflexivity | constructor].
  - inversion Hp as [|? ? Hp1 Hp2]; subst.
    destruct (worker_total (clock k) p) as [c [Hc Hb]]; [apply Hp1|].
    destruct (IH (S k) Hp2) as [cs [Hcs Hbs]].
    rewrite Hc, Hcs. simpl. exists (c :: cs). split; [reflexivity|].
    now constructor.
Qed.

Lemma counts_within parts counts :
  Forall2 (fun p c => 0 <= c <= Z.max 0 p) parts counts ->
  Forall (fun c => 0 <= c) counts
  /\ (Forall (fun p => 0 <= p) parts -> sumZ counts <= sumZ parts)
  /\ length counts = length parts.
Proof.
  induction 1 as [|p c parts counts Hpc _ [IH1 [IH2 IH3]]]; simpl.
  - repeat split; [constructor | lia].
  - repeat split.
    + constructor; [lia | assumption].
    + intros Hp. inversion Hp; subst. specialize (IH2 ltac:(assumption)). lia.
    + now rewrite IH3.
Qed.

Lemma worker_counts_total N W e :
  1 <= W <= GoInt.max_int ->
  exists parts counts,
    partitions N W = Done parts
    /\ worker_counts N W e = Done counts
    /\ length parts = Z.to_nat W
    /\ Forall2 (fun p c => 0 <= c <= Z.max 0 p) parts counts.
Proof.
  intros HW.
  destruct (partitions_total N W HW) as [parts [Hp [Hl Hr]]].
  destruct (run_workers_total (clock e) parts 0%nat Hr) as [counts [Hc Hb]].
  exists parts, counts. unfold worker_counts. rewrite Hp. simpl. auto.
Qed.

Lemma parallelPi_total N W e :
  1 <= W <= GoInt.max_int ->
  exists r, parallelPi N W e = Done r.
Proof.
  intros HW.
  destruct (worker_counts_total N W e HW) as [parts [counts [_ [Hc _]]]].
  unfold parallelPi. rewrite Hc. simpl. eauto.
Qed.

(** With a positive total the counts stay within the partitions, so their
    sum is at most the total and the receive loop does not wrap. *)
Lemma worker_counts_spec N W e :
  0 <= N <= GoInt.max_int -> 1 <= W <= GoInt.max_int ->
  exists counts,
    worker_counts N W e = Done counts
    /\ Forall2 (fun p c => 0 <= c <= p)
               (map (share N W) (indices 0 (Z.to_nat W))) counts
    /\ Forall (fun c => 0 <= c) counts
    /\ sumZ counts <= N.
Proof.
  intros HN HW.
  destruct (worker_counts_total N W e HW) as [parts [counts [Hp [Hc [Hl Hb]]]]].
  rewrite partitions_spec in Hp by assumption. injection Hp as <-.
  assert (Forall (fun p => 0 <= p) (map (share N W) (indices 0 (Z.to_nat W)))) as Hnn.
  { apply Forall_map, Forall_forall. intros j Hj%in_indices.
    apply share_bounds; lia. }
  destruct (counts_within _ _ Hb) as [H1 [H2 H3]].
  exists counts. repeat split; auto.
  - clear - Hb Hnn. induction Hb; constructor.
    + inversion Hnn; subst. lia.
    + apply IHHb. now inversion Hnn.
  - specialize (H2 Hnn). rewrite partitions_sum in H2 by lia. exact H2.
Qed.

End ParallelFacts.

(** ** Fan-in: every interleaving ends with the same total *)

Section FaninFacts.

Import Fanin.

(** The counts the workers hold, all non-negative, with a sum that fits
    an [int]; the channel has room for one value per worker. *)
Variable counts : list Z.
Hypothesis counts_nonneg : Forall (fun c => 0 <= c) counts.
Hypothesis counts_fit : sumZ counts <= GoInt.max_int.

Lemma inv_init : Inv counts (init counts (Z.of_nat (length counts))).
Proof using All.
  unfold Inv, init; simpl. repeat split; auto; try discriminate; lia.
Qed.

(* Uses the two implications of the invariant whose premise is at hand. *)
Local Ltac close_inv :=
  try discriminate; auto;
  repeat match goal with
  | Himp : ?x = ?v -> _ /\ _, H : ?x = ?v |- _ =>
      let A := fresh in
      let B := fresh in
      destruct (Himp H) as [A B]; clear Himp
  end;
  try discriminate; try congruence; auto.

Local Ltac fields :=
  cbn [unsent undone buf cap closed totalInside ranging] in *.

Lemma inv_step s c :
  Inv counts s -> step (Running s) c ->
  exists s', c = Running s' /\ Inv counts s' /\ (measure s' < measure s)%nat.
Proof using All.
  intros (Hsum & Hu & Hb & Ht & Hcap & Hcl & Hrg) Hstep.
  inversion Hstep; subst; clear Hstep; fields.
  - (* send *)
    eexists; split; [reflexivity|].
    apply Forall_app in Hu as [Hu1 Hu2]. inversion Hu2; subst.
    rewrite sumZ_app in Hsum. simpl in Hsum.
    rewrite length_app in Hcap. simpl in Hcap.
    split; [unfold Inv; fields | unfold measure; fields].
    + repeat split; close_inv.
      * rewrite !sumZ_app. simpl. lia.
      * apply Forall_app; auto.
      * apply Forall_app; auto.
      * rewrite !length_app. simpl. lia.
    + rewrite !length_app. simpl. lia.
  - (* send on a closed channel: excluded *)
    destruct (Hcl eq_refl) as [Hnil _]. now destruct l1.
  - (* wg.Done() *)
    eexists; split; [reflexivity|].
    split; [unfold Inv; fields | unfold measure; fields].
    + repeat split; close_inv.
    + lia.
  - (* close *)
    eexists; split; [reflexivity|].
    split; [unfold Inv; fields | unfold measure; fields].
    + repeat split; close_inv.
    + lia.
  - (* receive *)
    eexists; split; [reflexivity|].
    inversion Hb; subst. simpl in Hsum, Hcap.
    assert (0 <= sumZ l) by now apply sumZ_nonneg.
    assert (0 <= sumZ b) by now apply sumZ_nonneg.
    assert (GoInt.add t c0 = t + c0) as Hadd by (apply add_exact; int_range; lia).
    split; [unfold Inv; fields | unfold measure; fields].
    + rewrite Hadd. repeat split; close_inv; lia.
    + simpl. lia.
  - (* leaving the loop *)
    eexists; split; [reflexivity|].
    split; [unfold Inv; fields | unfold measure; fields].
    + repeat split; close_inv.
    + lia.
Qed.

Lemma inv_run n : forall s c,
  Inv counts s -> run n (Running s) c ->
  exists s', c = Running s' /\ Inv counts s' /\ (n + measure s' <= measure s)%nat.
Proof using All.
  induction n as [|n IH]; intros s c HI Hr; inversion Hr; subst.
  - exists s. split; [reflexivity | split; [assumption | lia]].
  - destruct (inv_step _ _ HI H0) as (s1 & -> & HI1 & Hm1).
    destruct (IH _ _ HI1 H1) as (s2 & -> & HI2 & Hm2).
    exists s2. split; [reflexivity | split; [assumption | lia]].
Qed.

(** A caller still in the loop is never stuck. *)
Lemma progress s :
  Inv counts s -> ranging s = true -> exists c, step (Running s) c.
Proof using All.
  intros (Hsum & Hu & Hb & Ht & Hcap & Hcl & Hrg) Hr.
  destruct s as [u n b k cl t r]; cbn [unsent undone buf cap closed totalInside ranging] in *.
  subst r. destruct b as [|c b].
  - destruct cl.
    + destruct (Hcl eq_refl) as [-> ->]. eexists. apply step_exit.
    + destruct u as [|c u].
      * destruct n; eexists; [apply step_close | apply step_done].
      * eexists. apply (step_send [] c u). simpl in *. lia.
  - eexists. apply step_recv.
Qed.

Lemma final_total s :
  Inv counts s -> ranging s = false -> totalInside s = sumZ counts.
Proof using All.
  intros (Hsum & Hu & Hb & Ht & Hcap & Hcl & Hrg) Hr.
  destruct (Hrg Hr) as [Hbuf Hclosed]. destruct (Hcl Hclosed) as [Hun _].
  rewrite Hun, Hbuf in Hsum. simpl in Hsum. lia.
Qed.

(** From every reachable state some execution lets the caller finish. *)
Lemma completes m : forall s,
  (measure s <= m)%nat -> Inv counts s ->
  exists n s', run n (Running s) (Running s') /\ ranging s' = false.
Proof using All.
  induction m as [|m IH]; intros s Hm HI.
  - destruct (ranging s) eqn:Hr.
    + destruct (progress s HI Hr) as [c Hc].
      destruct (inv_step _ _ HI Hc) as (s1 & _ & _ & Hlt). lia.
    + exists O, s. split; [constructor | assumption].
  - destruct (ranging s) eqn:Hr.
    + destruct (progress s HI Hr) as [c Hc].
      destruct (inv_step _ _ HI Hc) as (s1 & -> & HI1 & Hlt).
      destruct (IH s1 ltac:(lia) HI1) as (n & s' & Hrun & Hfin).
      exists (S n), s'. split; [econstructor; eassumption | assumption].
    + exists O, s. split; [constructor | assumption].
Qed.

End FaninFacts.

(** ** Shape of formatted numbers *)

Lemma is_digit_digit d : d <= 9 -> Fmt.is_digit (Fmt.digit d) = true.
Proof.
  intros H. unfold Fmt.digit.
  assert (Z.to_nat d <= 9)%nat as Hn by lia.
  generalize dependent (Z.to_nat d). intros n Hn.
  do 10 (destruct n as [|n]; [reflexivity|]). lia.
Qed.

Lemma all_digits_app s1 s2 :
  Fmt.all_digits (s1 ++ s2) = Fmt.all_digits s1 && Fmt.all_digits s2.
Proof.
  induction s1 as [|a s1 IH]; simpl; [reflexivity|].
  now rewrite IH, andb_assoc.
Qed.

Lemma string_length_app s1 s2 :
  String.length (s1 ++ s2) = (String.length s1 + String.length s2)%nat.
Proof. induction s1 as [|a s1 IH]; simpl; [reflexivity | now rewrite IH]. Qed.

Lemma mod10_le9 n : n mod 10 <= 9.
Proof. pose proof (Z.mod_pos_bound n 10 ltac:(lia)). lia. Qed.

Lemma single_digit_shape d :
  d <= 9 ->
  Fmt.all_digits (String (Fmt.digit d) EmptyString) = true.
Proof.
  intros H. cbn [Fmt.all_digits]. now rewrite is_digit_digit.
Qed.

Lemma fixed_digits_shape k : forall n,
  Fmt.all_digits (Fmt.fixed_digits k n) = true
  /\ String.length (Fmt.fixed_digits k n) = k.
Proof.
  induction k as [|k IH]; intros n; cbn [Fmt.fixed_digits].
  - split; reflexivity.
  - destruct (IH (n / 10)) as [H1 H2].
    rewrite all_digits_app, string_length_app, H1, H2.
    rewrite single_digit_shape by apply mod10_le9.
    cbn [String.length]. split; [reflexivity | lia].
Qed.

Lemma digits_fuel_shape fuel : forall n,
  Fmt.all_digits (Fmt.digits_fuel fuel n) = true
  /\ Fmt.digits_fuel fuel n <> EmptyString.
Proof.
  induction fuel as [|f IH]; intros n; cbn [Fmt.digits_fuel].
  - rewrite single_digit_shape by apply mod10_le9.
    split; [reflexivity | discriminate].
  - destruct (Z.ltb_spec n 10).
    + rewrite single_digit_shape by lia. split; [reflexivity | discriminate].
    + destruct (IH (n / 10)) as [H1 H2].
      rewrite all_digits_app, H1.
      rewrite single_digit_shape by apply mod10_le9.
      split; [reflexivity|].
      destruct (Fmt.digits_fuel f (n / 10)); [contradiction | discriminate].
Qed.


(** ** Finiteness of the printed values *)

Lemma digits2_size p : digits2_pos p = Pos.size p.
Proof. induction p as [p IH|p IH|]; simpl; now rewrite ?IH. Qed.

Lemma Zdigits2_nonneg m : 0 <= Zdigits2 m.
Proof. destruct m; simpl; lia. Qed.

Lemma Zdigits2_gt m : 0 <= m -> m < 2 ^ Zdigits2 m.
Proof.
  destruct m as [|p|p]; intros H; simpl Zdigits2; [reflexivity | | lia].
  rewrite digits2_size. pose proof (Pos.size_gt p) as Hp.
  apply Pos2Z.pos_lt_pos in Hp. now rewrite Pos2Z.inj_pow in Hp.
Qed.

Lemma Zdigits2_le m k : 0 <= m -> 0 <= k -> m < 2 ^ k -> Zdigits2 m <= k.
Proof.
  destruct m as [|p|p]; intros Hm Hk Hlt; simpl Zdigits2; [lia | | lia].
  rewrite digits2_size. pose proof (Pos.size_le p) as Hp.
  apply Pos2Z.pos_le_pos in Hp. rewrite Pos2Z.inj_pow in Hp.
  assert (2 ^ Z.pos (Pos.size p) < 2 ^ (k + 1)) as Hpow
    by (rewrite Z.pow_add_r, Z.pow_1_r by lia; lia).
  apply Z.pow_lt_mono_r_iff in Hpow; lia.
Qed.

Lemma digits2_pow_le p : 2 ^ (Zpos (digits2_pos p) - 1) <= Zpos p.
Proof.
  rewrite digits2_size. pose proof (Pos.size_le p) as Hp.
  apply Pos2Z.pos_le_pos in Hp. rewrite Pos2Z.inj_pow in Hp.
  replace (Z.pos (Pos.size p)) with (Z.succ (Z.pos (Pos.size p) - 1)) in Hp by lia.
  rewrite Z.pow_succ_r in Hp by lia. lia.
Qed.

Lemma shr_1_bounds mrs :
  0 <= shr_m mrs ->
  0 <= shr_m (shr_1 mrs)
  /\ Zdigits2 (shr_m (shr_1 mrs)) <= Z.max 0 (Zdigits2 (shr_m mrs) - 1).
Proof.
  destruct mrs as [m r s].
  destruct m as [|[p|p|]|p]; cbn [shr_1 shr_m Zdigits2 digits2_pos]; intros H;
    rewrite ?Pos2Z.inj_succ; lia.
Qed.

Lemma shr_iter_bounds p : forall mrs,
  0 <= shr_m mrs ->
  0 <= shr_m (iter_pos shr_1 p mrs)
  /\ Zdigits2 (shr_m (iter_pos shr_1 p mrs))
     <= Z.max 0 (Zdigits2 (shr_m mrs) - Zpos p).
Proof.
  induction p as [p IH|p IH|]; intros mrs H; cbn [iter_pos].
  - destruct (shr_1_bounds mrs H) as [H1 H2].
    destruct (IH _ H1) as [H3 H4]. destruct (IH _ H3) as [H5 H6].
    split; [assumption | lia].
  - destruct (IH _ H) as [H3 H4]. destruct (IH _ H3) as [H5 H6].
    split; [assumption | lia].
  - apply shr_1_bounds, H.
Qed.

Lemma shr_record_m m l : shr_m (shr_record_of_loc m l) = m.
Proof. destruct l as [|[| |]]; reflexivity. Qed.

Lemma shr_fexp_bounds m e l mrs e' :
  0 <= m ->
  shr_fexp prec emax m e l = (mrs, e') ->
  0 <= shr_m mrs
  /\ e' <= Z.max e (fexp prec emax (Zdigits2 m + e))
  /\ Zdigits2 (shr_m mrs) + e'
     <= Z.max (Zdigits2 m + e) (fexp prec emax (Zdigits2 m + e)).
Proof.
  intros Hm. unfold shr_fexp, shr.
  destruct (fexp prec emax (Zdigits2 m + e) - e) as [|p|p] eqn:Hn;
    intros [= <- <-]; rewrite ?shr_record_m.
  - repeat split; lia.
  - destruct (shr_iter_bounds p (shr_record_of_loc m l)) as [H1 H2];
      [now rewrite shr_record_m|].
    rewrite shr_record_m in H2. repeat split; lia.
  - repeat split; lia.
Qed.

Lemma round_nearest_even_bounds m l :
  0 <= m ->
  0 <= round_nearest_even m l /\ Zdigits2 (round_nearest_even m l) <= Zdigits2 m + 1.
Proof.
  intros Hm.
  assert (m <= round_nearest_even m l <= m + 1) as Hr.
  { unfold round_nearest_even. destruct l as [|[| |]]; try lia.
    destruct (Z.even m); lia. }
  split; [lia|].
  pose proof (Zdigits2_gt m Hm). pose proof (Zdigits2_nonneg m).
  apply Zdigits2_le; [lia | lia |].
  rewrite Z.pow_add_r, Z.pow_1_r by lia. lia.
Qed.


Lemma iter_xO_value d : forall m, Zpos (Pos.iter xO m d) = Zpos m * 2 ^ Zpos d.
Proof.
  induction d as [|d IH] using Pos.peano_ind; intros m.
  - cbn [Pos.iter]. rewrite Z.pow_1_r. lia.
  - rewrite Pos.iter_succ, Pos2Z.inj_xO, IH, Pos2Z.inj_succ, Z.pow_succ_r by lia.
    lia.
Qed.



Lemma binary_round_opp m e :
  binary_round prec emax true m e = SFopp (binary_round prec emax false m e).
Proof.
  unfold binary_round, binary_round_aux.
  destruct (shl_align m e _) as [mz ez].
  destruct (shr_fexp prec emax (Z.pos mz) ez loc_Exact) as [mrs1 e1].
  destruct (shr_fexp prec emax _ e1 loc_Exact) as [mrs2 e2].
  destruct (shr_m mrs2); [reflexivity | | reflexivity].
  now destruct (e2 <=? emax - prec).
Qed.

Lemma valid_binary_opp x :
  valid_binary (SFopp x) = valid_binary x.
Proof. now destruct x. Qed.

(** [float64(z)] is the correctly rounded value of the integer [z]. *)
Lemma Prim2SF_float64 z :
  GoInt.in_range z ->
  Prim2SF (float64 z) = binary_normalize prec emax z 0 false.
Proof.
  intros Hz. unfold float64. apply Prim2SF_SF2Prim.
  assert (forall p, Zpos p < 2 ^ 63 ->
            valid_binary (binary_round prec emax false p 0) = true) as Hpos.
  { intros p Hp.
    change (binary_round prec emax false p 0)
      with (binary_normalize prec emax (Zpos p) 0 false).
    replace (Zpos p) with (Uint63.to_Z (Uint63.of_Z (Zpos p))).
    - rewrite <- of_uint63_spec. apply Prim2SF_valid.
    - rewrite Uint63.of_Z_spec. apply Z.mod_small.
      change Uint63.wB with (2 ^ 63). lia. }
  int_range. destruct z as [|p|p]; cbn [binary_normalize].
  - reflexivity.
  - apply Hpos. lia.
  - rewrite binary_round_opp, valid_binary_opp.
    destruct (Z.eq_dec (Zpos p) (2 ^ 63)) as [Heq|Hne].
    + injection Heq as ->. vm_compute. reflexivity.
    + apply Hpos. lia.
Qed.






(** ** The driver's report *)

Lemma string_app_assoc (s1 s2 s3 : string) :
  ((s1 ++ s2) ++ s3 = s1 ++ (s2 ++ s3))%string.
Proof. induction s1 as [|a s1 IH]; simpl; [reflexivity | now rewrite IH]. Qed.

Lemma string_app_nil_r (s : string) : (s ++ "")%string = s.
Proof. induction s as [|a s IH]; simpl; [reflexivity | now rewrite IH]. Qed.

Lemma TotalPoints_fits : 0 <= TotalPoints <= GoInt.max_int.
Proof. rewrite max_int_value. unfold TotalPoints. lia. Qed.

Section DriverFacts.

Context {R : RandLib}.

Lemma parallelPi_row env k W :
  1 <= W <= GoInt.max_int ->
  exists pi, run_row env k (W, pi, elapsed (parEnv env k)).
Proof.
  intros HW.
  destruct (worker_counts_spec TotalPoints W (parEnv env k) TotalPoints_fits HW)
    as [counts [Hc [_ [Hnn Hs]]]].
  exists (estimate (sumZ counts) TotalPoints), counts. cbn [fst snd].
  pose proof (sumZ_nonneg counts Hnn). pose proof TotalPoints_fits.
  repeat split; try assumption; try lia.
  unfold parallelPi. rewrite Hc. cbn [bind].
  rewrite collect_exact; [reflexivity | assumption | lia].
Qed.

Lemma range_threads_spec env Ws : forall k report,
  Forall (fun W => 1 <= W <= GoInt.max_int) Ws ->
  exists rows,
    range_threads env k Ws report
    = Done (report ++ join (map render_par rows))%string
    /\ map (fun row => fst (fst row)) rows = Ws
    /\ run_rows env k rows.
Proof.
  induction Ws as [|W Ws IH]; intros k report HWs.
  - exists []. cbn. now rewrite string_app_nil_r.
  - inversion HWs as [|? ? HW HWs']; subst.
    destruct (parallelPi_row env k W HW) as [pi Hrow].
    pose proof Hrow as [counts (_ & _ & _ & _ & Hpar)]. cbn [fst snd] in Hpar.
    cbn [range_threads]. rewrite Hpar. cbn [bind].
    destruct (IH (S k) (report ++ Report.par_row W pi (elapsed (parEnv env k)))%string HWs')
      as [rows (Hrun & Hmap & Hrows)].
    exists ((W, pi, elapsed (parEnv env k)) :: rows).
    rewrite Hrun. cbn [map join fold_right run_rows fst].
    split; [now rewrite string_app_assoc|].
    split; [now rewrite Hmap | now split].
Qed.

Lemma threadCounts_positive :
  Forall (fun W => 1 <= W <= GoInt.max_int) threadCounts.
Proof.
  unfold threadCounts. rewrite max_int_value.
  repeat constructor; lia.
Qed.

(** [main] returns, and its report is the title, the header, the row of
    the sequential run and one row per entry of [threadCounts]. *)
Lemma main_spec env :
  exists piSeq c rows,
    main env
    = Done (Report.title ++ Report.header
            ++ Report.seq_row piSeq (seqElapsed env)
            ++ join (map render_par rows))%string
    /\ sequentialPi (seqNow env) TotalPoints = Done piSeq
    /\ piSeq = estimate c TotalPoints /\ 0 <= c <= TotalPoints
    /\ map (fun row => fst (fst row)) rows = threadCounts
    /\ run_rows env 0 rows.
Proof.
  assert (sequentialPi (seqNow env) TotalPoints
          = Done (estimate (hits (samples (Z.to_nat TotalPoints)
                                          (Seed (seqNow env))))
                           TotalPoints)) as Hseq.
  { unfold sequentialPi, sequentialPi_loop.
    now rewrite sampling_loop by apply TotalPoints_fits. }
  pose proof (samples_length (Z.to_nat TotalPoints) (Seed (seqNow env))) as Hlen.
  destruct (range_threads_spec env threadCounts 0
              (Report.title ++ Report.header
               ++ Report.seq_row (estimate (hits (samples (Z.to_nat TotalPoints)
                                                          (Seed (seqNow env))))
                                           TotalPoints)
                                 (seqElapsed env))%string
              threadCounts_positive) as [rows (Hrun & Hmap & Hrows)].
  eexists. exists (hits (samples (Z.to_nat TotalPoints) (Seed (seqNow env)))), rows.
  split.
  { unfold main. rewrite Hseq. cbn [bind].
    rewrite !string_app_assoc. rewrite Hrun.
    now rewrite !string_app_assoc. }
  split; [exact Hseq|]. split; [reflexivity|].
  split; [|split; assumption].
  pose proof (hits_bounds (samples (Z.to_nat TotalPoints) (Seed (seqNow env)))) as Hh.
  rewrite Hlen in Hh. unfold TotalPoints in *. lia.
Qed.

End DriverFacts.

Section DriverFormatting.

Context {R : RandLib}.


End DriverFormatting.

(** * The claims *)

Section Claims.

Context {R : RandLib}.

(** C1: for a total N >= 1 and W >= 1 workers, [parallelPi] hands out W
    partition sizes whose sum is exactly N; each of the first N mod W
    partitions gets floor(N/W)+1 samples and every other one floor(N/W). *)
Theorem partition_sizes (N W : Z) :
  1 <= N <= GoInt.max_int -> 1 <= W <= GoInt.max_int ->
  exists parts,
    partitions N W = Done parts
    /\ length parts = Z.to_nat W
    /\ sumZ parts = N
    /\ forall i, 0 <= i < W ->
         nth (Z.to_nat i) parts 0 = if i <? N mod W then N / W + 1 else N / W.
Proof.
  intros HN HW. eexists. split; [apply partitions_spec; lia|].
  split; [now rewrite length_map, indices_length|].
  split; [apply partitions_sum; lia|].
  intros i Hi.
  rewrite (nth_indep _ 0 (share N W 0))
    by (rewrite length_map, indices_length; lia).
  rewrite map_nth, nth_indices by lia.
  rewrite Z2Nat.id by lia. reflexivity.
Qed.

(** C2: for N >= 1 and W >= 1, [parallelPi] returns
    4 * (sum of the W workers' counts) / N.  The total the caller
    accumulates is the sum of the counts each worker sent, whatever the
    order in which they arrive: for every permutation of the arrivals,
    and for every interleaving of the workers, the closer and the
    receive loop (each of which ends, and at least one exists). *)
Theorem parallelPi_aggregate (N W : Z) (e : ParEnv) :
  1 <= N <= GoInt.max_int -> 1 <= W <= GoInt.max_int ->
  exists counts,
    worker_counts N W e = Done counts
    /\ length counts = Z.to_nat W
    /\ parallelPi N W e
       = Done ((4 * float64 (sumZ counts) / float64 N)%float, elapsed e)
    /\ (forall arrivals,
          Permutation counts arrivals ->
          collect arrivals = sumZ counts
          /\ estimate (collect arrivals) N
             = (4 * float64 (sumZ counts) / float64 N)%float)
    /\ (forall n c,
          Fanin.run n (Fanin.Running (Fanin.init counts W)) c ->
          (n <= 3 * Z.to_nat W + 2)%nat
          /\ exists s, c = Fanin.Running s
                       /\ (Fanin.ranging s = false ->
                           Fanin.totalInside s = sumZ counts
                           /\ estimate (Fanin.totalInside s) N
                              = (4 * float64 (sumZ counts) / float64 N)%float))
    /\ (exists n s,
          Fanin.run n (Fanin.Running (Fanin.init counts W)) (Fanin.Running s)
          /\ Fanin.ranging s = false).
Proof.
  intros HN HW.
  destruct (worker_counts_spec N W e ltac:(lia) HW) as [counts [Hc [Hb [Hnn Hs]]]].
  assert (length counts = Z.to_nat W) as Hlen.
  { apply Forall2_length in Hb. now rewrite length_map, indices_length in Hb. }
  assert (sumZ counts <= GoInt.max_int) as Hfit by lia.
  assert (W = Z.of_nat (length counts)) as HWlen by lia.
  exists counts. split; [assumption|]. split; [assumption|].
  split.
  { unfold parallelPi. rewrite Hc. cbn [bind].
    rewrite collect_exact by assumption. reflexivity. }
  split.
  { intros arrivals Hperm.
    assert (collect arrivals = sumZ counts) as ->; [|split; reflexivity].
    rewrite collect_exact.
    - symmetry. now apply sumZ_perm.
    - eapply Permutation_Forall; eassumption.
    - rewrite <- (sumZ_perm _ _ Hperm). assumption. }
  pose proof (inv_init counts Hnn Hfit) as Hinit. rewrite <- HWlen in Hinit.
  split.
  { intros n c Hrun.
    destruct (inv_run counts Hnn Hfit n _ _ Hinit Hrun) as (s & -> & HI & Hm).
    split.
    - unfold Fanin.measure, Fanin.init in Hm. cbn in Hm.
      pose proof (Nat.le_0_l (Fanin.measure s)). unfold Fanin.measure in *. lia.
    - exists s. split; [reflexivity|]. intros Hfin.
      rewrite (final_total counts Hnn Hfit s HI Hfin). split; reflexivity. }
  destruct (completes counts Hnn Hfit _ _ (Nat.le_refl _) Hinit) as (n & s & Hrun & Hfin).
  exists n, s. split; assumption.
Qed.

(** C3: for N >= 1, [sequentialPi] leaves its loop after exactly N
    iterations (the counter is N, N samples were drawn with two draws
    each), its counter of hits is the number of those samples classified
    inside, and it returns the float64 value 4 * hits / N. *)
Theorem sequentialPi_spec (now N : Z) :
  1 <= N <= GoInt.max_int ->
  let drawn := samples (Z.to_nat N) (Seed now) in
  sequentialPi_loop now N
  = Done (N, mkTally (hits drawn) (advance (2 * Z.to_nat N) (Seed now)))
  /\ length drawn = Z.to_nat N
  /\ sequentialPi now N
     = Done (4 * float64 (hits drawn) / float64 N)%float.
Proof.
  intros HN drawn. unfold sequentialPi, sequentialPi_loop.
  rewrite sampling_loop by lia. subst drawn.
  split; [reflexivity|]. split; [apply samples_length | reflexivity].
Qed.


(** C5: the count of hits of either loop is never negative and never
    above the number of samples processed so far, at the end and after
    any number [k] of iterations; every worker of a parallel run reports
    a count within its partition. *)
Theorem count_bounds (now N : Z) :
  0 <= N <= GoInt.max_int ->
  (exists t, sequentialPi_loop now N = Done (N, t)
             /\ 0 <= insideCircle t <= N)
  /\ (exists c, worker now N = Done c /\ 0 <= c <= N)
  /\ (forall g k, 0 <= k <= N ->
        exists t, for_loop (Z.to_nat N) k sequentialPi_body 0 (mkTally 0 g)
                  = Done (k, t)
                  /\ 0 <= insideCircle t <= k)
  /\ (forall g k, 0 <= k <= N ->
        exists t, for_loop (Z.to_nat N) k worker_body 0 (mkTally 0 g)
                  = Done (k, t)
                  /\ 0 <= insideCircle t <= k)
  /\ (forall W e, 1 <= W <= GoInt.max_int ->
        exists parts counts,
          partitions N W = Done parts
          /\ worker_counts N W e = Done counts
          /\ Forall2 (fun p c => 0 <= c <= p) parts counts).
Proof.
  intros HN.
  assert (forall g k, 0 <= k <= N ->
            exists t, for_loop (Z.to_nat N) k sequentialPi_body 0 (mkTally 0 g)
                      = Done (k, t)
                      /\ 0 <= insideCircle t <= k) as Hprefix.
  { intros g k Hk.
    rewrite for_loop_spec by (rewrite ?min_int_value; lia).
    rewrite Z.sub_0_r, tally_fold by lia.
    eexists. split; [reflexivity|]. cbn [insideCircle].
    pose proof (hits_bounds (samples (Z.to_nat k) g)) as Hh.
    rewrite samples_length in Hh. lia. }
  split; [apply Hprefix; lia|].
  split.
  { destruct (worker_total now N) as [c [Hc Hb]]; [lia|]. exists c. split; [assumption | lia]. }
  split; [exact Hprefix|].
  split; [rewrite worker_body_eq; exact Hprefix|].
  intros W e HW.
  destruct (worker_counts_spec N W e HN HW) as [counts [Hc [Hb _]]].
  eexists. exists counts. split; [apply partitions_spec; assumption|]. auto.
Qed.

(** C6 (the claim fails on the code, see [worker_seed]): the seed is the
    clock value plus the partition size, and partition sizes repeat.  In
    the first parallel run of [main] both workers get 500000 samples, so
    two equal clock readings give them the same seed, the same generator
    and the same count; with partitions of sizes 2 and 1, clock readings
    one nanosecond apart give the same seed as well. *)
Theorem worker_seeds_collide (t : Z) (e : Z) :
  partitions TotalPoints 2 = Done [500000; 500000]
  /\ worker_seeds (fun _ => t) [500000; 500000]
     = [GoInt.add t 500000; GoInt.add t 500000]
  /\ ~ NoDup (worker_seeds (fun _ => t) [500000; 500000])
  /\ (exists c, worker_counts TotalPoints 2 (mkParEnv (fun _ => t) e)
                = Done [c; c])
  /\ partitions 3 2 = Done [2; 1]
  /\ worker_seeds (fun k => 1000 + Z.of_nat k) [2; 1] = [1002; 1002].
Proof.
  split; [reflexivity|]. split; [reflexivity|].
  split.
  { cbn. intros H. inversion H as [|? ? Hin _]; subst. apply Hin. now left. }
  split.
  { unfold worker_counts.
    replace (partitions TotalPoints 2) with (Done [500000; 500000]) by reflexivity.
    cbn [bind run_workers clock].
    destruct (worker_total t 500000) as [c [Hc _]]; [rewrite max_int_value; lia|].
    exists c. rewrite Hc. reflexivity. }
  split; reflexivity.
Qed.

(** C7: a worker given 0 samples returns without error: its loop leaves
    with the counter at 0 and the generator untouched, and it sends 0.
    Such partitions occur (2 samples over 4 workers), and the run that
    contains them completes. *)
Theorem worker_zero_samples (now : Z) :
  worker_loop now 0 = Done (0, mkTally 0 (New (worker_seed now 0)))
  /\ worker now 0 = Done 0
  /\ partitions 2 4 = Done [1; 1; 0; 0]
  /\ forall e, exists counts,
       worker_counts 2 4 e = Done counts
       /\ nth 2 counts 1 = 0 /\ nth 3 counts 1 = 0
       /\ parallelPi 2 4 e = Done (estimate (sumZ counts) 2, elapsed e).
Proof.
  split; [reflexivity|]. split; [reflexivity|]. split; [reflexivity|].
  intros e.
  destruct (worker_counts_spec 2 4 e) as [counts [Hc [Hb [Hnn Hs]]]];
    [rewrite max_int_value; lia .. |].
  exists counts. split; [assumption|].
  cbn in Hb.
  inversion Hb as [|? c0 ? l0 H0 Hb0]; subst.
  inversion Hb0 as [|? c1 ? l1 H1 Hb1]; subst.
  inversion Hb1 as [|? c2 ? l2 H2 Hb2]; subst.
  inversion Hb2 as [|? c3 ? l3 H3 Hb3]; subst.
  inversion Hb3; subst.
  cbn [nth]. split; [unfold share in H2; cbn in H2; lia|].
  split; [unfold share in H3; cbn in H3; lia|].
  unfold parallelPi. rewrite Hc. cbn [bind].
  rewrite collect_exact; [reflexivity | assumption |].
  rewrite max_int_value. lia.
Qed.


(** C9: with the fixed total of 1,000,000 samples and the worker counts
    2, 4, 8, 16, 32, 64, nothing in [main] fails, whatever the clock and
    the generators do: [sequentialPi] and every [parallelPi] call return,
    no division panics, and in every interleaving of a run's goroutines
    no send hits a closed channel, the caller is never stuck in its
    receive loop, and the run is over within 3W+2 steps; [main] returns
    and the process exits with status 0. *)
Theorem main_completes (env : Env) :
  (exists report, main env = Done report)
  /\ exit_status (main env) = Some 0
  /\ (exists piSeq, sequentialPi (seqNow env) TotalPoints = Done piSeq)
  /\ Forall (fun kW =>
       (exists r, parallelPi TotalPoints (snd kW) (parEnv env (fst kW)) = Done r)
       /\ exists counts,
            worker_counts TotalPoints (snd kW) (parEnv env (fst kW)) = Done counts
            /\ forall n c,
                 Fanin.run n (Fanin.Running (Fanin.init counts (snd kW))) c ->
                 (n <= 3 * Z.to_nat (snd kW) + 2)%nat
                 /\ exists s, c = Fanin.Running s
                              /\ (Fanin.ranging s = true ->
                                  exists c', Fanin.step c c'))
     (combine (seq 0 (length threadCounts)) threadCounts).
Proof.
  destruct (main_spec env) as (piSeq & c & rows & Hmain & Hseq & _).
  split; [eexists; exact Hmain|].
  split; [rewrite Hmain; reflexivity|].
  split; [eexists; exact Hseq|].
  apply Forall_forall. intros [k W] Hin. cbn [fst snd].
  assert (1 <= W <= GoInt.max_int) as HW.
  { apply in_combine_r in Hin.
    exact (proj1 (Forall_forall _ _) threadCounts_positive W Hin). }
  split; [now apply parallelPi_total|].
  destruct (worker_counts_spec TotalPoints W (parEnv env k) TotalPoints_fits HW)
    as [counts [Hc [Hb [Hnn Hs]]]].
  pose proof TotalPoints_fits as Hfits.
  assert (sumZ counts <= GoInt.max_int) as Hfit by lia.
  assert (W = Z.of_nat (length counts)) as HWlen.
  { apply Forall2_length in Hb. rewrite length_map, indices_length in Hb. lia. }
  exists counts. split; [exact Hc|]. intros n c0 Hrun.
  pose proof (inv_init counts Hnn Hfit) as Hinit. rewrite <- HWlen in Hinit.
  destruct (inv_run counts Hnn Hfit n _ _ Hinit Hrun) as (s & -> & HI & Hm).
  split.
  - unfold Fanin.measure, Fanin.init in Hm. cbn in Hm. lia.
  - exists s. split; [reflexivity|]. intros Hr.
    exact (progress counts Hnn Hfit s HI Hr).
Qed.


End Claims.

(** ** The claims at concrete inputs *)

Lemma partition_sizes_witness :
  exists parts,
    partitions 10 3 = Done parts
    /\ length parts = Z.to_nat 3
    /\ sumZ parts = 10
    /\ forall i, 0 <= i < 3 ->
         nth (Z.to_nat i) parts 0 = if i <? 10 mod 3 then 10 / 3 + 1 else 10 / 3.
Proof. apply (partition_sizes 10 3); rewrite max_int_value; lia. Defined.

Lemma parallelPi_aggregate_witness :
  exists counts,
    worker_counts (R := Lcg.lib) 10 3 (mkParEnv (fun k => Z.of_nat k) 7) = Done counts
    /\ length counts = Z.to_nat 3
    /\ parallelPi (R := Lcg.lib) 10 3 (mkParEnv (fun k => Z.of_nat k) 7)
       = Done ((4 * float64 (sumZ counts) / float64 10)%float, 7).
Proof.
  destruct (parallelPi_aggregate (R := Lcg.lib) 10 3 (mkParEnv (fun k => Z.of_nat k) 7))
    as [counts [H1 [H2 [H3 _]]]].
  - rewrite max_int_value. lia.
  - rewrite max_int_value. lia.
  - exists counts. split; [exact H1 | split; [exact H2 | exact H3]].
Defined.

Lemma sequentialPi_spec_witness :
  let drawn := samples (R := Lcg.lib) (Z.to_nat 8) (Seed (RandLib := Lcg.lib) 42) in
  sequentialPi_loop (R := Lcg.lib) 42 8
  = Done (8, mkTally (hits drawn)
                     (advance (R := Lcg.lib) (2 * Z.to_nat 8) (Seed 42)))
  /\ length drawn = Z.to_nat 8
  /\ sequentialPi (R := Lcg.lib) 42 8
     = Done (4 * float64 (hits drawn) / float64 8)%float.
Proof.
  apply (sequentialPi_spec (R := Lcg.lib) 42 8). rewrite max_int_value. lia.
Defined.

Lemma count_bounds_witness :
  exists c, worker (R := Lcg.lib) 42 8 = Done c /\ 0 <= c <= 8.
Proof.
  apply (count_bounds (R := Lcg.lib) 42 8). rewrite max_int_value. lia.
Defined.

Lemma main_completes_witness :
  exit_status (main (R := Lcg.lib)
                    (mkEnv 1 12340000
                           (fun k => mkParEnv (fun j => Z.of_nat (k + j)) 5670000)))
  = Some 0.
Proof.
  apply (main_completes (R := Lcg.lib)
           (mkEnv 1 12340000
                  (fun k => mkParEnv (fun j => Z.of_nat (k + j)) 5670000))).
Defined.


(** ** Rounding at the boundary of the classifier

    The comparison is on the float64 sum: at [(1, 2^-30)] the sum of the
    squares rounds to 1.0 and the sample counts as inside. *)

Example classifier_rounds_the_sum :
  inside 1 0x1p-30 = true /\ (1 * 1 + 0x1p-30 * 0x1p-30 = 1)%float.
Proof. split; reflexivity. Qed.

(** ** The scenarios of the specification, evaluated *)

Example scenario_partitions :
  partitions 1000000 4 = Done [250000; 250000; 250000; 250000].
Proof. reflexivity. Qed.

Example scenario_aggregate :
  collect [196300; 196400; 196200; 196100] = 785000
  /\ collect [100; 200; 300] = 600
  /\ estimate 785000 1000000 = 3.14%float.
Proof. repeat split; reflexivity. Qed.

Example scenario_rows :
  (Report.seq_row 3.141 12340000 ++ Report.par_row 4 3.1405 5670000
   = "| 1 (Послідовно)   | 3.141000   | 12.34 |" ++ Report.nl
     ++ "| 4                  | 3.140500   | 5.67 |" ++ Report.nl)%string.
Proof. vm_compute. reflexivity. Qed.

(** * Further properties of the code *)

(** ** Sign and magnitude of the estimate *)

Lemma Zdigits2_lower m k : 0 <= k -> 2 ^ k <= m -> k + 1 <= Zdigits2 m.
Proof.
  intros Hk Hm.
  assert (0 < 2 ^ k) by (apply Z.pow_pos_nonneg; lia).
  pose proof (Zdigits2_gt m ltac:(lia)) as Hg.
  pose proof (Zdigits2_nonneg m).
  assert (2 ^ k < 2 ^ Zdigits2 m) as Hlt by lia.
  apply Z.pow_lt_mono_r_iff in Hlt; lia.
Qed.

Lemma Zdigits2_pow_le m : 0 < m -> 2 ^ (Zdigits2 m - 1) <= m.
Proof. destruct m as [|p|p]; intros H; try lia. apply digits2_pow_le. Qed.

Lemma Zdigits2_mono a b : 0 <= a <= b -> Zdigits2 a <= Zdigits2 b.
Proof.
  intros H. pose proof (Zdigits2_gt b ltac:(lia)).
  apply Zdigits2_le; [lia | apply Zdigits2_nonneg | lia].
Qed.

Lemma Zdigits2_shift m p :
  0 < m -> 0 <= p < Zdigits2 m ->
  0 < m / 2 ^ p /\ Zdigits2 m - p <= Zdigits2 (m / 2 ^ p).
Proof.
  intros Hm Hp.
  assert (0 < 2 ^ p) by (apply Z.pow_pos_nonneg; lia).
  pose proof (Zdigits2_pow_le m Hm) as Hl.
  assert (2 ^ (Zdigits2 m - 1 - p) <= m / 2 ^ p) as Hq.
  { apply Z.div_le_lower_bound; [assumption|].
    rewrite <- Z.pow_add_r by lia.
    replace (p + (Zdigits2 m - 1 - p)) with (Zdigits2 m - 1) by lia. exact Hl. }
  assert (0 < 2 ^ (Zdigits2 m - 1 - p)) by (apply Z.pow_pos_nonneg; lia).
  split; [lia|].
  pose proof (Zdigits2_lower _ (Zdigits2 m - 1 - p) ltac:(lia) Hq). lia.
Qed.

Lemma shr_1_m mrs : 0 <= shr_m mrs -> shr_m (shr_1 mrs) = shr_m mrs / 2.
Proof.
  destruct mrs as [m r s]. cbn [shr_m]. intros H. rewrite <- Z.div2_div.
  destruct m as [|[p|p|]|p]; try reflexivity; lia.
Qed.

Lemma shr_iter_m p : forall mrs,
  0 <= shr_m mrs ->
  shr_m (iter_pos shr_1 p mrs) = shr_m mrs / 2 ^ Zpos p.
Proof.
  induction p as [p IH|p IH|]; intros mrs H; cbn [iter_pos].
  - assert (0 < 2 ^ Zpos p) as Hpow by (apply Z.pow_pos_nonneg; lia).
    pose proof (shr_1_bounds mrs H) as [H1 _].
    pose proof (shr_iter_bounds p _ H1) as [H2 _].
    rewrite IH, IH, shr_1_m by assumption.
    rewrite !Z.div_div by lia. f_equal.
    replace (Zpos p~1) with (1 + Zpos p + Zpos p) by lia.
    rewrite !Z.pow_add_r, Z.pow_1_r by lia. ring.
  - assert (0 < 2 ^ Zpos p) as Hpow by (apply Z.pow_pos_nonneg; lia).
    pose proof (shr_iter_bounds p _ H) as [H2 _].
    rewrite IH, IH by assumption.
    rewrite Z.div_div by lia. f_equal.
    replace (Zpos p~0) with (Zpos p + Zpos p) by lia.
    now rewrite Z.pow_add_r by lia.
  - rewrite shr_1_m by assumption. now rewrite Z.pow_1_r.
Qed.

Lemma shr_fexp_pos m e l mrs e' :
  0 < m -> -1074 < Zdigits2 m + e ->
  shr_fexp prec emax m e l = (mrs, e') ->
  0 < shr_m mrs /\ Zdigits2 m + e <= Zdigits2 (shr_m mrs) + e'.
Proof.
  intros Hm HD. unfold shr_fexp, shr, fexp, SpecFloat.emin, prec, emax.
  destruct (Z.max (Zdigits2 m + e - 53) (3 - 1024 - 53) - e) as [|p|p] eqn:Hn;
    intros [= <- <-]; rewrite ?shr_record_m; try lia.
  rewrite shr_iter_m by (rewrite shr_record_m; lia). rewrite shr_record_m.
  destruct (Zdigits2_shift m (Zpos p) Hm) as [H1 H2]; lia.
Qed.

Lemma round_nearest_even_ge m l : m <= round_nearest_even m l.
Proof.
  unfold round_nearest_even. destruct l as [|[| |]]; try lia.
  destruct (Z.even m); lia.
Qed.

(** Rounding a positive mantissa outside the underflow range yields a
    finite non-zero number of the same magnitude, up to one binade. *)
Lemma binary_round_aux_pos sx mx ex lx :
  0 < mx -> ex <= 971 -> -1074 < Zdigits2 mx + ex <= 1023 ->
  fin_between sx (Zdigits2 mx + ex) (Zdigits2 mx + ex + 1)
              (binary_round_aux prec emax sx mx ex lx).
Proof.
  intros Hm He HD. unfold binary_round_aux.
  destruct (shr_fexp prec emax mx ex lx) as [mrs1 e1] eqn:E1.
  destruct (shr_fexp_bounds _ _ _ _ _ (Z.lt_le_incl _ _ Hm) E1) as (_ & H2 & H3).
  destruct (shr_fexp_pos _ _ _ _ _ Hm (proj1 HD) E1) as (P1 & P2).
  pose proof (round_nearest_even_ge (shr_m mrs1) (loc_of_shr_record mrs1)) as Hge.
  destruct (round_nearest_even_bounds (shr_m mrs1) (loc_of_shr_record mrs1)
              ltac:(lia)) as [_ H5].
  pose proof (Zdigits2_mono (shr_m mrs1)
                (round_nearest_even (shr_m mrs1) (loc_of_shr_record mrs1))
                ltac:(lia)) as Hmono.
  destruct (shr_fexp prec emax _ e1 loc_Exact) as [mrs2 e2] eqn:E2.
  unfold fexp, SpecFloat.emin, prec, emax in H2, H3.
  assert (0 < round_nearest_even (shr_m mrs1) (loc_of_shr_record mrs1))
    as Hr by lia.
  assert (-1074 < Zdigits2 (round_nearest_even (shr_m mrs1)
                                               (loc_of_shr_record mrs1)) + e1)
    as HD1 by lia.
  destruct (shr_fexp_bounds _ _ _ _ _ (Z.lt_le_incl _ _ Hr) E2) as (_ & H7 & H8).
  destruct (shr_fexp_pos _ _ _ _ _ Hr HD1 E2) as (P3 & P4).
  unfold fexp, SpecFloat.emin, prec, emax in *.
  destruct (shr_m mrs2) as [|p|p] eqn:Hp; try lia.
  cbn [Zdigits2] in H8, P4.
  destruct (Z.leb_spec e2 (1024 - 53)); cbn [fin_between]; [|lia].
  split; [reflexivity | lia].
Qed.

Lemma binary_round_pos sx m :
  Zpos m < 2 ^ 64 ->
  fin_between sx (Zpos (digits2_pos m)) (Zpos (digits2_pos m) + 1)
              (binary_round prec emax sx m 0).
Proof.
  intros Hm. unfold binary_round.
  assert (Zpos (digits2_pos m) <= 64) as Hd
    by (apply (Zdigits2_le (Zpos m)); lia).
  unfold shl_align, fexp, SpecFloat.emin, prec, emax.
  destruct (Z.max (Z.pos (digits2_pos m) + 0 - 53) (3 - 1024 - 53) - 0)
    as [|d|d] eqn:Ed.
  - pose proof (binary_round_aux_pos sx (Zpos m) 0 loc_Exact) as H.
    cbn [Zdigits2] in H. rewrite Z.add_0_r in H. apply H; lia.
  - pose proof (binary_round_aux_pos sx (Zpos m) 0 loc_Exact) as H.
    cbn [Zdigits2] in H. rewrite Z.add_0_r in H. apply H; lia.
  - assert (Zpos (digits2_pos (Pos.iter xO m d))
            = Zpos (digits2_pos m) + Zpos d) as Hi.
    { pose proof (Zdigits2_gt (Zpos m) ltac:(lia)) as Hg.
      pose proof (Zdigits2_pow_le (Zpos m) ltac:(lia)) as Hl.
      cbn [Zdigits2] in Hg, Hl.
      assert (0 < 2 ^ Zpos d) by (apply Z.pow_pos_nonneg; lia).
      apply Z.le_antisymm.
      - apply (Zdigits2_le (Zpos (Pos.iter xO m d))); [lia | lia |].
        rewrite iter_xO_value, Z.pow_add_r by lia.
        apply Z.mul_lt_mono_pos_r; assumption.
      - pose proof (Zdigits2_lower (Zpos (Pos.iter xO m d))
                      (Zpos (digits2_pos m) - 1 + Zpos d) ltac:(lia)) as Hlow.
        cbn [Zdigits2] in Hlow.
        rewrite iter_xO_value, Z.pow_add_r in Hlow by lia.
        specialize (Hlow ltac:(apply Z.mul_le_mono_nonneg_r; lia)). lia. }
    pose proof (binary_round_aux_pos sx (Zpos (Pos.iter xO m d))
                  (Z.max (Z.pos (digits2_pos m) + 0 - 53) (3 - 1024 - 53))
                  loc_Exact) as H.
    cbn [Zdigits2] in H. rewrite Hi in H.
    replace (Z.pos (digits2_pos m) + Z.pos d
             + Z.max (Z.pos (digits2_pos m) + 0 - 53) (3 - 1024 - 53))
      with (Zpos (digits2_pos m)) in H by lia.
    apply H; lia.
Qed.

(** [float64(z)] of a non-zero [int] is finite, not zero, and has the
    sign of [z]. *)
Lemma float64_nonzero z :
  GoInt.in_range z -> z <> 0 ->
  fin_between (z <? 0) 1 65 (Prim2SF (float64 z)).
Proof.
  intros Hz Hne. rewrite (Prim2SF_float64 z Hz). int_range.
  destruct z as [|m|m]; [contradiction | |]; cbn [binary_normalize].
  - pose proof (binary_round_pos false m ltac:(lia)) as H.
    assert (Zpos (digits2_pos m) <= 64) by (apply (Zdigits2_le (Zpos m)); lia).
    destruct (binary_round prec emax false m 0); cbn [fin_between] in *; try tauto.
    destruct H as [-> H]. split; [reflexivity | lia].
  - pose proof (binary_round_pos true m ltac:(lia)) as H.
    assert (Zpos (digits2_pos m) <= 64) by (apply (Zdigits2_le (Zpos m)); lia).
    destruct (binary_round prec emax true m 0); cbn [fin_between] in *; try tauto.
    destruct H as [-> H]. split; [reflexivity | lia].
Qed.

Lemma SFmul_pos x y sx sy lx hx ly hy :
  fin_between sx lx hx x -> fin_between sy ly hy y ->
  -1074 < lx + ly - 1 -> hx + hy <= 973 ->
  fin_between (xorb sx sy) (lx + ly - 1) (hx + hy + 1) (SFmul prec emax x y).
Proof.
  destruct x as [| | |s1 m1 e1], y as [| | |s2 m2 e2];
    cbn [fin_between SFmul]; try tauto.
  intros [-> Hx] [-> Hy] Hlo Hhi.
  pose proof (Zdigits2_gt (Zpos m1) ltac:(lia)) as Hg1.
  pose proof (Zdigits2_gt (Zpos m2) ltac:(lia)) as Hg2.
  pose proof (digits2_pow_le m1) as Hl1. pose proof (digits2_pow_le m2) as Hl2.
  cbn [Zdigits2] in Hg1, Hg2.
  set (d1 := Zpos (digits2_pos m1)) in *. set (d2 := Zpos (digits2_pos m2)) in *.
  assert (1 <= d1 /\ 1 <= d2) as [Hd1 Hd2] by (subst d1 d2; lia).
  assert (d1 + d2 - 1 <= Zdigits2 (Zpos (m1 * m2)) <= d1 + d2) as Hd.
  { split.
    - assert (0 < 2 ^ (d1 - 1)) by (apply Z.pow_pos_nonneg; lia).
      assert (0 < 2 ^ (d2 - 1)) by (apply Z.pow_pos_nonneg; lia).
      assert (2 ^ (d1 - 1 + (d2 - 1)) <= Zpos (m1 * m2)) as Hp.
      { rewrite Pos2Z.inj_mul, Z.pow_add_r by lia.
        apply Z.mul_le_mono_nonneg; lia. }
      pose proof (Zdigits2_lower (Zpos (m1 * m2)) (d1 - 1 + (d2 - 1))
                    ltac:(lia) Hp). lia.
    - apply Zdigits2_le; [lia | lia |].
      rewrite Pos2Z.inj_mul, Z.pow_add_r by lia.
      apply Z.mul_lt_mono_nonneg; lia. }
  assert (e1 + e2 <= 971) as A1 by lia.
  assert (-1074 < Zdigits2 (Zpos (m1 * m2)) + (e1 + e2) <= 1023) as A2 by lia.
  pose proof (binary_round_aux_pos (xorb sx sy) (Zpos (m1 * m2)) (e1 + e2)
                loc_Exact ltac:(lia) A1 A2) as H.
  destruct (binary_round_aux prec emax (xorb sx sy) (Z.pos (m1 * m2)) (e1 + e2) loc_Exact);
    cbn [fin_between] in *; try tauto.
  destruct H as [-> H]. split; [reflexivity | lia].
Qed.

Lemma SFdiv_pos x y sx sy lx hx ly hy :
  fin_between sx lx hx x -> fin_between sy ly hy y ->
  -1021 <= lx - hy -> hx - ly + 1 <= 1023 ->
  fin_between (xorb sx sy) (lx - hy) (hx - ly + 2) (SFdiv prec emax x y).
Proof.
  destruct x as [| | |s1 m1 e1], y as [| | |s2 m2 e2];
    cbn [fin_between SFdiv]; try tauto.
  intros [-> Hx] [-> Hy] Hlo Hhi. unfold SFdiv_core_binary. cbn [Zdigits2].
  pose proof (Zdigits2_gt (Zpos m1) ltac:(lia)) as Hg1.
  pose proof (Zdigits2_gt (Zpos m2) ltac:(lia)) as Hg2.
  pose proof (digits2_pow_le m1) as Hl1. pose proof (digits2_pow_le m2) as Hl2.
  cbn [Zdigits2] in Hg1, Hg2.
  set (d1 := Zpos (digits2_pos m1)) in *. set (d2 := Zpos (digits2_pos m2)) in *.
  assert (1 <= d1 /\ 1 <= d2) as [Hd1 Hd2] by (subst d1 d2; lia).
  set (e' := Z.min (fexp prec emax (d1 + e1 - (d2 + e2))) (e1 - e2)).
  assert (e' <= d1 + e1 - (d2 + e2) - 53 /\ e' <= e1 - e2) as [He1 He2].
  { subst e'. unfold fexp, SpecFloat.emin, prec, emax. lia. }
  set (s := e1 - e2 - e') in *.
  assert (0 <= s /\ 53 <= d1 + s - d2) as [Hs0 Hs1] by (subst s; lia).
  set (m' := match s with
             | 0 => Z.pos m1
             | Z.pos _ => Z.shiftl (Z.pos m1) s
             | Z.neg _ => 0
             end).
  assert (m' = Zpos m1 * 2 ^ s) as Hm'.
  { subst m'. destruct s as [|p|p] eqn:Es.
    - rewrite Z.pow_0_r. lia.
    - now rewrite Z.shiftl_mul_pow2 by lia.
    - lia. }
  assert (0 < 2 ^ s) as Hpow by (apply Z.pow_pos_nonneg; lia).
  assert (2 ^ (d1 - 1 + s) <= m' < 2 ^ (d1 + s)) as Hmb.
  { rewrite Hm', !Z.pow_add_r by lia. split.
    - apply Z.mul_le_mono_nonneg_r; lia.
    - apply Z.mul_lt_mono_pos_r; lia. }
  pose proof (Z.div_eucl_eq m' (Zpos m2) ltac:(lia)) as Heq.
  pose proof (Z.mod_pos_bound m' (Zpos m2) ltac:(lia)) as Hrem.
  assert (fst (Z.div_eucl m' (Zpos m2)) = m' / Zpos m2) as Hdiv by reflexivity.
  destruct (Z.div_eucl m' (Z.pos m2)) as [q r]. cbn [fst] in Hdiv.
  clear Heq Hrem.
  assert (2 ^ (d1 + s - 1 - d2) <= q < 2 ^ (d1 + s - d2 + 1)) as Hq.
  { rewrite Hdiv. split.
    - apply Z.div_le_lower_bound; [lia|].
      assert (0 < 2 ^ (d1 + s - 1 - d2)) by (apply Z.pow_pos_nonneg; lia).
      assert (2 ^ (d1 - 1 + s) = 2 ^ d2 * 2 ^ (d1 + s - 1 - d2)) as Hsplit.
      { rewrite <- Z.pow_add_r by lia. f_equal. lia. }
      assert (Zpos m2 * 2 ^ (d1 + s - 1 - d2) <= 2 ^ d2 * 2 ^ (d1 + s - 1 - d2))
        by (apply Z.mul_le_mono_nonneg_r; lia).
      lia.
    - apply Z.div_lt_upper_bound; [lia|].
      assert (0 < 2 ^ (d1 + s - d2 + 1)) by (apply Z.pow_pos_nonneg; lia).
      assert (2 ^ (d1 + s) = 2 ^ (d2 - 1) * 2 ^ (d1 + s - d2 + 1)) as Hsplit.
      { rewrite <- Z.pow_add_r by lia. f_equal. lia. }
      assert (2 ^ (d2 - 1) * 2 ^ (d1 + s - d2 + 1)
              <= Zpos m2 * 2 ^ (d1 + s - d2 + 1))
        by (apply Z.mul_le_mono_nonneg_r; lia).
      lia. }
  assert (0 < 2 ^ (d1 + s - 1 - d2)) by (apply Z.pow_pos_nonneg; lia).
  assert (d1 + s - d2 <= Zdigits2 q <= d1 + s - d2 + 1) as Hdq.
  { split.
    - pose proof (Zdigits2_lower q (d1 + s - 1 - d2) ltac:(lia) (proj1 Hq)). lia.
    - apply Zdigits2_le; lia. }
  assert (0 < q) as A0 by lia.
  assert (e' <= 971) as A1 by lia.
  assert (-1074 < Zdigits2 q + e' <= 1023) as A2 by (subst s; lia).
  pose proof (binary_round_aux_pos (xorb sx sy) q e'
                (new_location (Zpos m2) r) A0 A1 A2) as Hr.
  destruct (binary_round_aux prec emax (xorb sx sy) q e' (new_location (Z.pos m2) r));
    cbn [fin_between] in *; try tauto.
  destruct Hr as [-> Hr]. split; [reflexivity | subst s; lia].
Qed.

Lemma Prim2SF_zero_eq v s : Prim2SF v = S754_zero s -> v = SF2Prim (S754_zero s).
Proof. intros H. now rewrite <- H, SF2Prim_Prim2SF. Qed.

(** The sign of the estimate: for a positive total it is [+0] when the
    count is zero and a finite positive number otherwise. *)
Lemma estimate_sign c N :
  0 <= c <= GoInt.max_int -> 1 <= N <= GoInt.max_int ->
  (c = 0 -> estimate c N = 0%float)
  /\ (1 <= c -> fin_between false (-62) 70 (Prim2SF (estimate c N))).
Proof.
  intros Hc HN.
  pose proof (float64_nonzero N ltac:(int_range; lia) ltac:(lia)) as HfN.
  replace (N <? 0) with false in HfN by (symmetry; apply Z.ltb_ge; lia).
  assert (Prim2SF 4 = S754_finite false 4503599627370496 (-50)) as H4
    by (vm_compute; reflexivity).
  split.
  - intros ->. unfold estimate.
    apply (Prim2SF_zero_eq _ false).
    rewrite FloatAxioms.div_spec, FloatAxioms.mul_spec, H4.
    replace (Prim2SF (float64 0)) with (S754_zero false) by (vm_compute; reflexivity).
    unfold SF64div, SF64mul.
    destruct (Prim2SF (float64 N)) as [| | |s m e]; cbn [fin_between] in HfN;
      try contradiction.
    destruct HfN as [-> _]. reflexivity.
  - intros Hc1. unfold estimate.
    rewrite FloatAxioms.div_spec, FloatAxioms.mul_spec, H4.
    pose proof (float64_nonzero c ltac:(int_range; lia) ltac:(lia)) as Hfc.
    replace (c <? 0) with false in Hfc by (symmetry; apply Z.ltb_ge; lia).
    assert (fin_between false 3 3 (S754_finite false 4503599627370496 (-50)))
      as Hf4 by (cbn; split; [reflexivity | lia]).
    pose proof (SFmul_pos _ _ _ _ _ _ _ _ Hf4 Hfc ltac:(lia) ltac:(lia)) as Hm.
    pose proof (SFdiv_pos _ _ _ _ _ _ _ _ Hm HfN ltac:(lia) ltac:(lia)) as Hd.
    cbn [xorb] in Hd. unfold SF64div, SF64mul.
    destruct (SFdiv prec emax _ _) as [| | |s m e]; cbn [fin_between] in *;
      try contradiction.
    destruct Hd as [-> Hd]. split; [reflexivity | lia].
Qed.

(** ** Workers and partitions, in full *)

Section WorkerFacts.

Context {R : RandLib}.

Lemma worker_value now p :
  0 <= p <= GoInt.max_int ->
  worker now p
  = Done (hits (samples (Z.to_nat p) (New (worker_seed now p)))).
Proof.
  intros Hp. unfold worker, worker_loop. rewrite worker_body_eq.
  now rewrite sampling_loop by assumption.
Qed.

Lemma run_workers_value clock parts : forall k,
  Forall (fun p => 0 <= p <= GoInt.max_int) parts ->
  run_workers clock k parts = Done (worker_hits clock k parts).
Proof.
  induction parts as [|p parts IH]; intros k Hp; cbn [run_workers worker_hits].
  - reflexivity.
  - inversion Hp as [|? ? Hp1 Hp2]; subst.
    rewrite worker_value by assumption. cbn [bind].
    now rewrite IH by assumption.
Qed.

Lemma worker_skips now p : p <= 0 -> worker now p = Done 0.
Proof.
  intros Hp. unfold worker, worker_loop. rewrite worker_body_eq.
  now rewrite sampling_loop_empty by assumption.
Qed.

Lemma run_workers_skip clock parts : forall k,
  Forall (fun p => p <= 0) parts ->
  run_workers clock k parts = Done (repeat 0 (length parts)).
Proof.
  induction parts as [|p parts IH]; intros k Hp; cbn [run_workers].
  - reflexivity.
  - inversion Hp as [|? ? Hp1 Hp2]; subst.
    rewrite worker_skips by assumption. cbn [bind].
    now rewrite IH by assumption.
Qed.

End WorkerFacts.

Lemma shares_in_range N W :
  0 <= N <= GoInt.max_int -> 1 <= W ->
  Forall (fun p => 0 <= p <= GoInt.max_int)
         (map (share N W) (indices 0 (Z.to_nat W))).
Proof.
  intros HN HW. apply Forall_map, Forall_forall. intros j Hj%in_indices.
  pose proof (share_bounds N W j ltac:(lia) HW ltac:(lia)). lia.
Qed.

(** With a total that is not positive the quotient is not positive and
    the remainder is never handed out. *)
Lemma partitions_nonpos N W :
  GoInt.min_int <= N <= 0 -> 1 <= W <= GoInt.max_int ->
  exists parts, partitions N W = Done parts
                /\ length parts = Z.to_nat W
                /\ Forall (fun p => p <= 0) parts.
Proof.
  intros HN HW. unfold partitions.
  destruct (Z.eqb_spec W 0); [lia|].
  destruct (Z.ltb_spec W 0); [lia|].
  rewrite for_loop_spec by (rewrite ?min_int_value; lia).
  rewrite Z.sub_0_r, launch_fold. cbn [bind snd app].
  eexists. split; [reflexivity|].
  split; [now rewrite length_map, indices_length|].
  apply Forall_map, Forall_forall. intros j Hj%in_indices.
  unfold GoInt.quot, GoInt.rem.
  pose proof (Z.rem_bound_pos_neg N W ltac:(lia) ltac:(lia)) as Hr.
  assert (N <= Z.quot N W <= 0) as Hq.
  { pose proof (Z.quot_opp_l N W ltac:(lia)) as Ho.
    pose proof (Z.quot_pos (- N) W ltac:(lia) ltac:(lia)).
    assert (Z.quot (- N) W <= - N); [|lia].
    rewrite Z.quot_div_nonneg by lia.
    apply Z.div_le_upper_bound; [lia|].
    rewrite <- (Z.mul_1_l (- N)) at 1. apply Z.mul_le_mono_nonneg_r; lia. }
  rewrite wrap_id by (int_range; lia).
  destruct (Z.ltb_spec j (Z.rem N W)); lia.
Qed.

Lemma sumZ_repeat_0 n : sumZ (repeat 0 n) = 0.
Proof. induction n; simpl; lia. Qed.

Lemma float64_negative_zero N :
  GoInt.min_int <= N < 0 -> estimate 0 N = (-0)%float.
Proof.
  intros HN. unfold estimate.
  pose proof (float64_nonzero N ltac:(int_range; lia) ltac:(lia)) as HfN.
  replace (N <? 0) with true in HfN by (symmetry; apply Z.ltb_lt; lia).
  apply (Prim2SF_zero_eq _ true).
  rewrite FloatAxioms.div_spec, FloatAxioms.mul_spec.
  replace (Prim2SF 4) with (S754_finite false 4503599627370496 (-50))
    by (vm_compute; reflexivity).
  replace (Prim2SF (float64 0)) with (S754_zero false) by (vm_compute; reflexivity).
  unfold SF64div, SF64mul.
  destruct (Prim2SF (float64 N)) as [| | |s m e]; cbn [fin_between] in HfN;
    try contradiction.
  destruct HfN as [-> _]. reflexivity.
Qed.

Lemma wrap_inj a b q :
  GoInt.in_range a -> GoInt.in_range b ->
  GoInt.add a q = GoInt.add b q -> a = b.
Proof.
  unfold GoInt.add, GoInt.wrap. int_range. intros Ha Hb H.
  pose proof (Z.div_mod (a + q + 2 ^ 63) (2 ^ 64) ltac:(lia)) as Da.
  pose proof (Z.div_mod (b + q + 2 ^ 63) (2 ^ 64) ltac:(lia)) as Db.
  assert ((a + q + 2 ^ 63) mod 2 ^ 64 = (b + q + 2 ^ 63) mod 2 ^ 64) as Hm by lia.
  rewrite Hm in Da.
  change (2 ^ 64) with 18446744073709551616 in *.
  change (2 ^ 63) with 9223372036854775808 in *.
  lia.
Qed.

Lemma worker_seeds_equal_shares clock q n :
  worker_seeds clock (repeat q n)
  = map (fun k => GoInt.add (clock k) q) (seq 0 n).
Proof.
  unfold worker_seeds. rewrite repeat_length.
  generalize 0%nat. induction n as [|n IH]; intros k; cbn; [reflexivity|].
  unfold worker_seed at 1. f_equal. apply IH.
Qed.

Lemma positive_float v lo hi :
  fin_between false lo hi (Prim2SF v) ->
  (0 <? v)%float = true /\ (0 <=? v)%float = true
  /\ (v <? infinity)%float = true /\ (v =? 0)%float = false.
Proof.
  intros H.
  rewrite !FloatAxioms.ltb_spec, FloatAxioms.leb_spec, FloatAxioms.eqb_spec.
  replace (Prim2SF 0) with (S754_zero false) by reflexivity.
  replace (Prim2SF infinity) with (S754_infinity false) by reflexivity.
  destruct (Prim2SF v) as [| | |s m e]; cbn [fin_between] in H; try contradiction.
  destruct H as [-> _]. repeat split.
Qed.

(** The value of an estimate whose count is within a positive total:
    never negative, never infinite or NaN, and zero only for count 0. *)
Lemma estimate_nonneg c N :
  0 <= c <= GoInt.max_int -> 1 <= N <= GoInt.max_int ->
  (0 <=? estimate c N)%float = true
  /\ (estimate c N <? infinity)%float = true
  /\ ((estimate c N =? 0)%float = true <-> c = 0).
Proof.
  intros Hc HN. destruct (estimate_sign c N Hc HN) as [H0 H1].
  destruct (Z.eq_dec c 0) as [->|Hne].
  - rewrite (H0 eq_refl). repeat split; reflexivity.
  - destruct (positive_float _ _ _ (H1 ltac:(lia))) as (_ & A & B & C).
    rewrite C. repeat split; try assumption; [discriminate | contradiction].
Qed.

Section ParallelValue.

Context {R : RandLib}.

Lemma parallelPi_value N W e :
  0 <= N <= GoInt.max_int -> 1 <= W <= GoInt.max_int ->
  let parts := map (share N W) (indices 0 (Z.to_nat W)) in
  partitions N W = Done parts
  /\ worker_counts N W e = Done (worker_hits (clock e) 0 parts)
  /\ 0 <= sumZ (worker_hits (clock e) 0 parts) <= N
  /\ parallelPi N W e
     = Done (estimate (sumZ (worker_hits (clock e) 0 parts)) N, elapsed e).
Proof.
  intros HN HW parts.
  pose proof (partitions_spec N W HN HW) as Hp. fold parts in Hp.
  assert (worker_counts N W e = Done (worker_hits (clock e) 0 parts)) as Hc.
  { unfold worker_counts. rewrite Hp. cbn [bind].
    apply run_workers_value, shares_in_range; lia. }
  destruct (worker_counts_spec N W e HN HW) as [counts [Hc' [_ [Hnn Hs]]]].
  rewrite Hc in Hc'. injection Hc' as <-.
  pose proof (sumZ_nonneg _ Hnn).
  repeat split; try assumption.
  unfold parallelPi. rewrite Hc. cbn [bind].
  rewrite collect_exact; [reflexivity | assumption | lia].
Qed.

Lemma sequentialPi_value now N :
  0 <= N <= GoInt.max_int ->
  sequentialPi now N
  = Done (estimate (hits (samples (Z.to_nat N) (Seed now))) N).
Proof.
  intros HN. unfold sequentialPi, sequentialPi_loop.
  now rewrite sampling_loop by assumption.
Qed.

End ParallelValue.

(** * Further properties of the code *)

Section Extras.

Context {R : RandLib}.

(** X1: a worker asked for p >= 0 samples leaves its loop after exactly p
    iterations, having drawn p samples (2p values) from the generator it
    seeded with clock + p, and sends the number of those samples that are
    inside. *)
Theorem worker_counts_its_samples (now p : Z) :
  0 <= p <= GoInt.max_int ->
  let g := New (worker_seed now p) in
  worker_loop now p
  = Done (p, mkTally (hits (samples (Z.to_nat p) g))
                     (advance (2 * Z.to_nat p) g))
  /\ worker now p = Done (hits (samples (Z.to_nat p) g)).
Proof.
  intros Hp g. split; [|now apply worker_value].
  unfold worker_loop. rewrite worker_body_eq. now apply sampling_loop.
Qed.

(** X2: for a total N >= 0 and W >= 1 workers, [parallelPi] returns
    4 * (sum over the workers of the hits among the samples each drew
    from its own generator) / N: worker k draws share_k samples from the
    generator seeded with its clock reading plus share_k. *)
Theorem parallelPi_spec (N W : Z) (e : ParEnv) :
  0 <= N <= GoInt.max_int -> 1 <= W <= GoInt.max_int ->
  let parts := map (share N W) (indices 0 (Z.to_nat W)) in
  partitions N W = Done parts
  /\ worker_counts N W e = Done (worker_hits (clock e) 0 parts)
  /\ parallelPi N W e
     = Done (estimate (sumZ (worker_hits (clock e) 0 parts)) N, elapsed e).
Proof.
  intros HN HW parts.
  destruct (parallelPi_value N W e HN HW) as (H1 & H2 & _ & H3).
  repeat split; assumption.
Qed.

(** X3: with a total that is zero or negative and W >= 1 workers nothing
    panics and no sample is drawn: both estimators leave their loops at
    once, every worker sends 0, and the result is 0/0 = NaN for a total
    of 0 and -0.0 for a negative total. *)
Theorem nonpositive_total (now N W : Z) (e : ParEnv) :
  GoInt.min_int <= N <= 0 -> 1 <= W <= GoInt.max_int ->
  let v := if N =? 0 then nan else (-0)%float in
  sequentialPi_loop now N = Done (0, mkTally 0 (Seed now))
  /\ sequentialPi now N = Done v
  /\ worker_counts N W e = Done (repeat 0 (Z.to_nat W))
  /\ parallelPi N W e = Done (v, elapsed e).
Proof.
  intros HN HW v.
  assert (estimate 0 N = v) as Hv.
  { subst v. destruct (Z.eqb_spec N 0) as [->|Hne]; [reflexivity|].
    apply float64_negative_zero. lia. }
  assert (sequentialPi_loop now N = Done (0, mkTally 0 (Seed now))) as Hl
    by (apply sampling_loop_empty; lia).
  destruct (partitions_nonpos N W HN HW) as (parts & Hp & Hlen & Hall).
  assert (worker_counts N W e = Done (repeat 0 (Z.to_nat W))) as Hc.
  { unfold worker_counts. rewrite Hp. cbn [bind].
    rewrite run_workers_skip by assumption. now rewrite Hlen. }
  split; [exact Hl|].
  split; [unfold sequentialPi; rewrite Hl; cbn [bind snd insideCircle]; now f_equal|].
  split; [exact Hc|].
  unfold parallelPi. rewrite Hc. cbn [bind].
  assert (collect (repeat 0 (Z.to_nat W)) = 0) as ->.
  { rewrite collect_exact.
    - apply sumZ_repeat_0.
    - apply Forall_forall. intros x Hx%repeat_spec. lia.
    - rewrite sumZ_repeat_0, max_int_value. lia. }
  now rewrite Hv.
Qed.

(** X4: for a total N >= 1 the value either estimator returns is a
    float64 that is never negative and never NaN or infinite, and it is
    zero exactly when no sample was counted inside. *)
Theorem estimates_are_nonnegative (now N W : Z) (e : ParEnv) :
  1 <= N <= GoInt.max_int -> 1 <= W <= GoInt.max_int ->
  let cs := hits (samples (Z.to_nat N) (Seed now)) in
  let cp := sumZ (worker_hits (clock e) 0
                              (map (share N W) (indices 0 (Z.to_nat W)))) in
  exists vs vp,
    sequentialPi now N = Done vs
    /\ parallelPi N W e = Done (vp, elapsed e)
    /\ (0 <=? vs)%float = true /\ (vs <? infinity)%float = true
    /\ ((vs =? 0)%float = true <-> cs = 0)
    /\ (0 <=? vp)%float = true /\ (vp <? infinity)%float = true
    /\ ((vp =? 0)%float = true <-> cp = 0).
Proof.
  intros HN HW cs cp.
  destruct (parallelPi_value N W e ltac:(lia) HW) as (_ & _ & Hb & Hp).
  fold cp in Hb, Hp.
  pose proof (hits_bounds (samples (Z.to_nat N) (Seed now))) as Hh.
  rewrite samples_length in Hh. fold cs in Hh.
  exists (estimate cs N), (estimate cp N).
  split; [apply sequentialPi_value; lia|]. split; [exact Hp|].
  destruct (estimate_nonneg cs N ltac:(lia) HN) as (A1 & A2 & A3).
  destruct (estimate_nonneg cp N ltac:(lia) HN) as (B1 & B2 & B3).
  repeat split; try assumption; try apply A3; try apply B3.
Qed.

(** X5: the partition sizes never increase along the launch order and
    differ by at most one; with fewer samples than workers the first N
    workers get one sample each and the others none. *)
Theorem partitions_balanced (N W : Z) :
  0 <= N <= GoInt.max_int -> 1 <= W <= GoInt.max_int ->
  exists parts,
    partitions N W = Done parts
    /\ (forall i j, 0 <= i <= j -> j < W ->
          nth (Z.to_nat j) parts 0 <= nth (Z.to_nat i) parts 0
          <= nth (Z.to_nat j) parts 0 + 1)
    /\ (N < W -> forall i, 0 <= i < W ->
          nth (Z.to_nat i) parts 0 = if i <? N then 1 else 0).
Proof.
  intros HN HW. eexists. split; [apply partitions_spec; assumption|].
  assert (forall i, 0 <= i < W ->
            nth (Z.to_nat i) (map (share N W) (indices 0 (Z.to_nat W))) 0
            = share N W i) as Hnth.
  { intros i Hi.
    rewrite (nth_indep _ 0 (share N W 0))
      by (rewrite length_map, indices_length; lia).
    rewrite map_nth, nth_indices by lia. f_equal. lia. }
  split.
  - intros i j Hij Hj. rewrite !Hnth by lia. unfold share.
    destruct (Z.ltb_spec i (N mod W)), (Z.ltb_spec j (N mod W)); lia.
  - intros HNW i Hi. rewrite Hnth by lia. unfold share.
    rewrite Z.mod_small, Z.div_small by lia.
    destruct (Z.ltb_spec i N); lia.
Qed.

(** X6: when the total is a multiple of the worker count (as in every run
    of [main]) all workers get the same share, and then two workers get
    the same seed exactly when they read the same clock value: the seeds
    of a run are pairwise distinct iff its clock readings are. *)
Theorem seeds_distinct_iff_clock (N W : Z) (clock : nat -> Z) :
  1 <= N <= GoInt.max_int -> 1 <= W <= GoInt.max_int -> N mod W = 0 ->
  (forall k, GoInt.in_range (clock k)) ->
  partitions N W = Done (repeat (N / W) (Z.to_nat W))
  /\ (NoDup (worker_seeds clock (repeat (N / W) (Z.to_nat W)))
      <-> NoDup (map clock (seq 0 (Z.to_nat W)))).
Proof.
  intros HN HW Hmod Hclock. split.
  - rewrite partitions_spec by lia.
    f_equal. rewrite <- (indices_length 0 (Z.to_nat W)) at 2.
    rewrite <- map_const. apply map_ext_in. intros j Hj%in_indices.
    unfold share. rewrite Hmod. destruct (Z.ltb_spec j 0); lia.
  - rewrite worker_seeds_equal_shares.
    rewrite <- (map_map clock (fun t => GoInt.add t (N / W))).
    split.
    + apply NoDup_map_inv.
    + apply NoDup_map_NoDup_ForallPairs. intros a b Ha Hb Heq.
      apply in_map_iff in Ha as (ka & <- & _).
      apply in_map_iff in Hb as (kb & <- & _).
      now apply wrap_inj in Heq.
Qed.

(** X7: with one worker [parallelPi] samples as [sequentialPi] does: it
    returns the estimate over N samples of the single generator seeded
    with clock + N, and when the package-level generator starts in that
    same state [sequentialPi] returns the very same float. *)
Theorem single_worker_is_sequential (now N : Z) (e : ParEnv) :
  1 <= N <= GoInt.max_int ->
  parallelPi N 1 e
  = Done (estimate (hits (samples (Z.to_nat N)
                                  (New (worker_seed (clock e 0%nat) N)))) N,
          elapsed e)
  /\ (Seed now = New (worker_seed (clock e 0%nat) N) ->
      exists v, sequentialPi now N = Done v
                /\ parallelPi N 1 e = Done (v, elapsed e)).
Proof.
  intros HN.
  destruct (parallelPi_value N 1 e ltac:(lia) ltac:(rewrite max_int_value; lia))
    as (_ & _ & _ & Hp).
  assert (share N 1 0 = N) as Hs.
  { unfold share. rewrite Z.mod_1_r, Z.div_1_r. reflexivity. }
  change (map (share N 1) (indices 0 (Z.to_nat 1))) with [share N 1 0] in Hp.
  cbn [worker_hits sumZ fold_right] in Hp.
  rewrite Hs, Z.add_0_r in Hp.
  split; [exact Hp|].
  intros Hg. eexists. split; [apply sequentialPi_value; lia|].
  rewrite Hp, Hg. reflexivity.
Qed.

End Extras.

(** ** More on the fan-in *)

Lemma step_cost s c :
  Fanin.step (Fanin.Running s) c ->
  forall s', c = Fanin.Running s' ->
             Fanin.measure s = S (Fanin.measure s') /\ Fanin.cap s' = Fanin.cap s.
Proof.
  intros Hstep s' ->. inversion Hstep; subst; unfold Fanin.measure;
    cbn [Fanin.unsent Fanin.undone Fanin.buf Fanin.cap Fanin.closed
         Fanin.totalInside Fanin.ranging];
    rewrite ?length_app; cbn [length]; split; try reflexivity; lia.
Qed.

Lemma run_cost n : forall s s',
  Fanin.run n (Fanin.Running s) (Fanin.Running s') ->
  Fanin.measure s = (n + Fanin.measure s')%nat /\ Fanin.cap s' = Fanin.cap s.
Proof.
  induction n as [|n IH]; intros s s' Hrun; inversion Hrun; subst.
  - split; reflexivity.
  - destruct c2 as [s2|p].
    + destruct (step_cost _ _ H0 s2 eq_refl) as [Hm Hc].
      destruct (IH _ _ H1) as [Hm' Hc']. split; [lia | congruence].
    + inversion H1; subst. inversion H.
Qed.

Lemma final_is_terminal counts s :
  Inv counts s -> Fanin.ranging s = false ->
  Fanin.unsent s = [] /\ Fanin.undone s = O /\ Fanin.buf s = []
  /\ Fanin.closed s = true /\ Fanin.measure s = O
  /\ forall c, ~ Fanin.step (Fanin.Running s) c.
Proof.
  intros (_ & _ & _ & _ & _ & Hcl & Hrg) Hr.
  destruct (Hrg Hr) as [Hbuf Hclosed]. destruct (Hcl Hclosed) as [Hun Hdone].
  destruct s as [u n b k cl t r];
    cbn [Fanin.unsent Fanin.undone Fanin.buf Fanin.cap Fanin.closed
         Fanin.totalInside Fanin.ranging] in *.
  subst. repeat split; try reflexivity.
  intros c Hstep. inversion Hstep; subst; now destruct l1.
Qed.

(** ** The rows of the table *)

Lemma count_char_app a s1 s2 :
  count_char a (s1 ++ s2) = (count_char a s1 + count_char a s2)%nat.
Proof.
  induction s1 as [|b s1 IH]; cbn [String.append count_char]; [reflexivity|].
  rewrite IH. lia.
Qed.

Section FreeOf.

(** A character that is no digit and occurs in none of the fixed pieces
    of a formatted number. *)
Variable a : ascii.
Hypothesis not_digit : Fmt.is_digit a = false.
Hypothesis not_special : count_char a "-.+InfNaN" = O.

Lemma count_char_digits s : Fmt.all_digits s = true -> count_char a s = O.
Proof using All.
  induction s as [|b s IH]; cbn [Fmt.all_digits count_char]; [reflexivity|].
  intros [Hb Hs]%andb_prop. rewrite (IH Hs).
  destruct (Ascii.eqb_spec a b) as [->|]; [congruence | reflexivity].
Qed.

Lemma count_char_pieces :
  count_char a "-" = O /\ count_char a "." = O /\ count_char a "NaN" = O
  /\ count_char a "+Inf" = O /\ count_char a "-Inf" = O.
Proof using All.
  cbn [count_char] in *.
  destruct (Ascii.eqb a "-"), (Ascii.eqb a "."), (Ascii.eqb a "+"),
    (Ascii.eqb a "I"), (Ascii.eqb a "n"), (Ascii.eqb a "f"),
    (Ascii.eqb a "N"), (Ascii.eqb a "a"); try discriminate; repeat split.
Qed.

Lemma count_char_fixed_point k q : count_char a (Fmt.fixed_point k q) = O.
Proof using All.
  destruct count_char_pieces as (_ & Hdot & _).
  unfold Fmt.fixed_point, Fmt.digits. destruct k as [|k].
  - apply count_char_digits, digits_fuel_shape.
  - rewrite !count_char_app, Hdot.
    rewrite !count_char_digits; [reflexivity | apply fixed_digits_shape
                                 | apply digits_fuel_shape].
Qed.

Lemma count_char_format_f k v : count_char a (Fmt.format_f k v) = O.
Proof using All.
  destruct count_char_pieces as (Hm & _ & Hnan & Hp & Hn).
  unfold Fmt.format_f.
  destruct (Prim2SF v) as [s|s| |s m e].
  - rewrite count_char_app, count_char_fixed_point. destruct s; cbn [Fmt.sign];
      [rewrite Hm|]; reflexivity.
  - destruct s; assumption.
  - assumption.
  - rewrite count_char_app, count_char_fixed_point. destruct s; cbn [Fmt.sign];
      [rewrite Hm|]; reflexivity.
Qed.

Lemma count_char_format_d z : count_char a (Fmt.format_d z) = O.
Proof using All.
  destruct count_char_pieces as (Hm & _).
  unfold Fmt.format_d, Fmt.digits. destruct (z <? 0).
  - rewrite count_char_app, Hm. apply count_char_digits, digits_fuel_shape.
  - apply count_char_digits, digits_fuel_shape.
Qed.

End FreeOf.

Lemma bar_free :
  Fmt.is_digit "|" = false /\ count_char "|" "-.+InfNaN" = O.
Proof. split; reflexivity. Qed.

Lemma newline_free :
  Fmt.is_digit (ascii_of_nat 10) = false
  /\ count_char (ascii_of_nat 10) "-.+InfNaN" = O.
Proof. split; reflexivity. Qed.

Section StdoutFacts.

Context {R : RandLib}.

Variable durationString : Z -> string.


End StdoutFacts.

Section ExtrasOutput.

Context {R : RandLib}.

(** X8: in every interleaving of a run nothing panics and no worker ever
    waits on the channel or sends on a closed one: whenever a worker
    still holds its count the channel is open and has room (it was made
    with one slot per worker), so the send can happen at once. *)
Theorem workers_never_block (N W : Z) (e : ParEnv) :
  1 <= N <= GoInt.max_int -> 1 <= W <= GoInt.max_int ->
  exists counts,
    worker_counts N W e = Done counts
    /\ forall n cfg,
         Fanin.run n (Fanin.Running (Fanin.init counts W)) cfg ->
         exists s,
           cfg = Fanin.Running s
           /\ Fanin.cap s = W
           /\ Z.of_nat (length (Fanin.buf s)) <= W
           /\ forall l1 c l2,
              Fanin.unsent s = l1 ++ c :: l2 ->
              Fanin.closed s = false
              /\ Z.of_nat (length (Fanin.buf s)) < W
              /\ Fanin.step
                   (Fanin.Running s)
                   (Fanin.Running
                      (Fanin.mkState (l1 ++ l2) (S (Fanin.undone s))
                                     (Fanin.buf s ++ [c]) W false
                                     (Fanin.totalInside s) (Fanin.ranging s))).
Proof.
  intros HN HW.
  destruct (worker_counts_spec N W e ltac:(lia) HW) as [counts [Hc [Hb [Hnn Hs]]]].
  assert (sumZ counts <= GoInt.max_int) as Hfit by lia.
  assert (W = Z.of_nat (length counts)) as HWlen.
  { apply Forall2_length in Hb. rewrite length_map, indices_length in Hb. lia. }
  exists counts. split; [exact Hc|]. intros n cfg Hrun.
  pose proof (inv_init counts Hnn Hfit) as Hinit. rewrite <- HWlen in Hinit.
  destruct (inv_run counts Hnn Hfit n _ _ Hinit Hrun) as (s & -> & HI & _).
  destruct (run_cost n _ _ Hrun) as [_ Hcap]. cbn [Fanin.init Fanin.cap] in Hcap.
  destruct HI as (_ & _ & _ & _ & Hroom & Hcl & _).
  exists s. split; [reflexivity|].
  split; [exact Hcap|]. split; [lia|].
  intros l1 c l2 Hun.
  assert (Fanin.closed s = false) as Hopen.
  { destruct (Fanin.closed s); [|reflexivity].
    destruct (Hcl eq_refl) as [Hnil _]. rewrite Hun in Hnil. now destruct l1. }
  assert (Z.of_nat (length (Fanin.buf s)) < W) as Hlt.
  { rewrite Hun, length_app in Hroom. cbn [length] in Hroom. lia. }
  split; [exact Hopen|]. split; [exact Hlt|].
  destruct s as [u m b k cl t r];
    cbn [Fanin.unsent Fanin.undone Fanin.buf Fanin.cap Fanin.closed
         Fanin.totalInside Fanin.ranging] in *.
  subst. now apply Fanin.step_send.
Qed.

(** X9: the caller can always leave its receive loop, and every
    interleaving in which it does takes exactly 3W+2 steps (W sends, W
    [wg.Done], W receives, the close and the exit); at that point nothing
    is left to run: every worker has sent and is done, the channel is
    closed and empty, and no further step exists. *)
Theorem fanin_ends_clean (N W : Z) (e : ParEnv) :
  1 <= N <= GoInt.max_int -> 1 <= W <= GoInt.max_int ->
  exists counts,
    worker_counts N W e = Done counts
    /\ (exists n s,
          Fanin.run n (Fanin.Running (Fanin.init counts W)) (Fanin.Running s)
          /\ Fanin.ranging s = false)
    /\ forall n s,
         Fanin.run n (Fanin.Running (Fanin.init counts W)) (Fanin.Running s) ->
         Fanin.ranging s = false ->
         n = (3 * Z.to_nat W + 2)%nat
         /\ Fanin.unsent s = [] /\ Fanin.undone s = O /\ Fanin.buf s = []
         /\ Fanin.closed s = true
         /\ forall c, ~ Fanin.step (Fanin.Running s) c.
Proof.
  intros HN HW.
  destruct (worker_counts_spec N W e ltac:(lia) HW) as [counts [Hc [Hb [Hnn Hs]]]].
  assert (sumZ counts <= GoInt.max_int) as Hfit by lia.
  assert (length counts = Z.to_nat W) as Hlen.
  { apply Forall2_length in Hb. now rewrite length_map, indices_length in Hb. }
  assert (W = Z.of_nat (length counts)) as HWlen by lia.
  pose proof (inv_init counts Hnn Hfit) as Hinit. rewrite <- HWlen in Hinit.
  exists counts. split; [exact Hc|].
  split; [exact (completes counts Hnn Hfit _ _ (le_n _) Hinit)|].
  intros n s Hrun Hfin.
  destruct (inv_run counts Hnn Hfit n _ _ Hinit Hrun) as (s' & [= <-] & HI & _).
  destruct (run_cost n _ _ Hrun) as [Hm _].
  destruct (final_is_terminal counts s HI Hfin) as (H1 & H2 & H3 & H4 & H5 & H6).
  unfold Fanin.measure at 1 in Hm.
  cbn [Fanin.init Fanin.unsent Fanin.undone Fanin.buf Fanin.closed Fanin.ranging
       length] in Hm.
  repeat split; try assumption. lia.
Qed.

(** X10: whatever the estimate and the duration (NaN and infinities
    included) a data row of the table is one line with exactly four
    [|] characters, as the header has: nothing a number is printed as
    contains a [|] or a line break. *)
Theorem table_rows_are_single_lines (W : Z) (pi : float) (d : Z) :
  count_char "|" Report.header = 4%nat
  /\ count_char "|" (Report.seq_row pi d) = 4%nat
  /\ count_char "|" (Report.par_row W pi d) = 4%nat
  /\ (exists body, Report.seq_row pi d = (body ++ Report.nl)%string
                   /\ count_char (ascii_of_nat 10) body = O)
  /\ (exists body, Report.par_row W pi d = (body ++ Report.nl)%string
                   /\ count_char (ascii_of_nat 10) body = O).
Proof.
  destruct bar_free as [B1 B2]. destruct newline_free as [L1 L2].
  split; [reflexivity|].
  split.
  { unfold Report.seq_row. rewrite !count_char_app.
    rewrite !(count_char_format_f "|" B1 B2). reflexivity. }
  split.
  { unfold Report.par_row. rewrite !count_char_app.
    rewrite !(count_char_format_f "|" B1 B2), (count_char_format_d "|" B1 B2).
    reflexivity. }
  split.
  { exists ("| 1 (Послідовно)   | " ++ Fmt.format_f 6 pi ++ "   | "
            ++ Fmt.format_f 2 (milliseconds d) ++ " |")%string.
    split; [unfold Report.seq_row; now rewrite !string_app_assoc|].
    rewrite !count_char_app.
    rewrite !(count_char_format_f _ L1 L2). reflexivity. }
  exists ("| " ++ Fmt.format_d W ++ "                  | "
          ++ Fmt.format_f 6 pi ++ "   | "
          ++ Fmt.format_f 2 (milliseconds d) ++ " |")%string.
  split; [unfold Report.par_row; now rewrite !string_app_assoc|].
  rewrite !count_char_app.
  rewrite !(count_char_format_f _ L1 L2), (count_char_format_d _ L1 L2).
  reflexivity.
Qed.


End ExtrasOutput.

(** ** The further properties at concrete inputs *)

Lemma worker_counts_its_samples_witness :
  let g := New (RandLib := Lcg.lib) (worker_seed 42 8) in
  worker_loop (R := Lcg.lib) 42 8
  = Done (8, mkTally (hits (samples (R := Lcg.lib) (Z.to_nat 8) g))
                     (advance (R := Lcg.lib) (2 * Z.to_nat 8) g))
  /\ worker (R := Lcg.lib) 42 8
     = Done (hits (samples (R := Lcg.lib) (Z.to_nat 8) g)).
Proof.
  apply (worker_counts_its_samples (R := Lcg.lib) 42 8).
  rewrite max_int_value. lia.
Defined.

Lemma parallelPi_spec_witness :
  let e := mkParEnv (fun k => Z.of_nat k) 7 in
  let parts := map (share 10 3) (indices 0 (Z.to_nat 3)) in
  partitions 10 3 = Done parts
  /\ worker_counts (R := Lcg.lib) 10 3 e
     = Done (worker_hits (R := Lcg.lib) (clock e) 0 parts)
  /\ parallelPi (R := Lcg.lib) 10 3 e
     = Done (estimate (sumZ (worker_hits (R := Lcg.lib) (clock e) 0 parts)) 10,
             elapsed e).
Proof.
  intro e.
  apply (parallelPi_spec (R := Lcg.lib) 10 3 e); rewrite max_int_value; lia.
Defined.

Lemma nonpositive_total_witness :
  let e := mkParEnv (fun k => Z.of_nat k) 7 in
  sequentialPi_loop (R := Lcg.lib) 42 (-5)
  = Done (0, mkTally 0 (Seed (RandLib := Lcg.lib) 42))
  /\ sequentialPi (R := Lcg.lib) 42 (-5) = Done (-0)%float
  /\ worker_counts (R := Lcg.lib) (-5) 3 e = Done (repeat 0 (Z.to_nat 3))
  /\ parallelPi (R := Lcg.lib) (-5) 3 e = Done ((-0)%float, elapsed e).
Proof.
  intro e.
  apply (nonpositive_total (R := Lcg.lib) 42 (-5) 3 e);
    rewrite ?min_int_value, ?max_int_value; lia.
Defined.

Lemma estimates_are_nonnegative_witness :
  let e := mkParEnv (fun k => Z.of_nat k) 7 in
  let cs := hits (samples (R := Lcg.lib) (Z.to_nat 10) (Seed 42)) in
  let cp := sumZ (worker_hits (R := Lcg.lib) (clock e) 0
                              (map (share 10 3) (indices 0 (Z.to_nat 3)))) in
  exists vs vp,
    sequentialPi (R := Lcg.lib) 42 10 = Done vs
    /\ parallelPi (R := Lcg.lib) 10 3 e = Done (vp, elapsed e)
    /\ (0 <=? vs)%float = true /\ (vs <? infinity)%float = true
    /\ ((vs =? 0)%float = true <-> cs = 0)
    /\ (0 <=? vp)%float = true /\ (vp <? infinity)%float = true
    /\ ((vp =? 0)%float = true <-> cp = 0).
Proof.
  intro e.
  apply (estimates_are_nonnegative (R := Lcg.lib) 42 10 3 e);
    rewrite max_int_value; lia.
Defined.

Lemma partitions_balanced_witness :
  exists parts,
    partitions 10 3 = Done parts
    /\ (forall i j, 0 <= i <= j -> j < 3 ->
          nth (Z.to_nat j) parts 0 <= nth (Z.to_nat i) parts 0
          <= nth (Z.to_nat j) parts 0 + 1)
    /\ (10 < 3 -> forall i, 0 <= i < 3 ->
          nth (Z.to_nat i) parts 0 = if i <? 10 then 1 else 0).
Proof. apply (partitions_balanced 10 3); rewrite max_int_value; lia. Defined.

Lemma seeds_distinct_iff_clock_witness :
  let clock := fun k : nat => Z.of_nat (Nat.min k 10) in
  partitions 12 3 = Done (repeat (12 / 3) (Z.to_nat 3))
  /\ (NoDup (worker_seeds clock (repeat (12 / 3) (Z.to_nat 3)))
      <-> NoDup (map clock (seq 0 (Z.to_nat 3)))).
Proof.
  intro clock.
  apply (seeds_distinct_iff_clock 12 3 clock).
  - rewrite max_int_value. lia.
  - rewrite max_int_value. lia.
  - reflexivity.
  - intro k. unfold GoInt.in_range, clock.
    rewrite min_int_value, max_int_value. lia.
Defined.

Lemma single_worker_is_sequential_witness :
  let e := mkParEnv (fun k => Z.of_nat k) 7 in
  parallelPi (R := Lcg.lib) 8 1 e
  = Done (estimate (hits (samples (R := Lcg.lib) (Z.to_nat 8)
                                  (New (worker_seed (clock e 0%nat) 8)))) 8,
          elapsed e)
  /\ (Seed (RandLib := Lcg.lib) 8 = New (worker_seed (clock e 0%nat) 8) ->
      exists v, sequentialPi (R := Lcg.lib) 8 8 = Done v
                /\ parallelPi (R := Lcg.lib) 8 1 e = Done (v, elapsed e)).
Proof.
  intro e.
  apply (single_worker_is_sequential (R := Lcg.lib) 8 8 e).
  rewrite max_int_value. lia.
Defined.

Lemma workers_never_block_witness :
  let e := mkParEnv (fun k => Z.of_nat k) 7 in
  exists counts,
    worker_counts (R := Lcg.lib) 10 3 e = Done counts
    /\ forall n cfg,
         Fanin.run n (Fanin.Running (Fanin.init counts 3)) cfg ->
         exists s,
           cfg = Fanin.Running s
           /\ Fanin.cap s = 3
           /\ Z.of_nat (length (Fanin.buf s)) <= 3
           /\ forall l1 c l2,
              Fanin.unsent s = l1 ++ c :: l2 ->
              Fanin.closed s = false
              /\ Z.of_nat (length (Fanin.buf s)) < 3
              /\ Fanin.step
                   (Fanin.Running s)
                   (Fanin.Running
                      (Fanin.mkState (l1 ++ l2) (S (Fanin.undone s))
                                     (Fanin.buf s ++ [c]) 3 false
                                     (Fanin.totalInside s) (Fanin.ranging s))).
Proof.
  intro e.
  apply (workers_never_block (R := Lcg.lib) 10 3 e); rewrite max_int_value; lia.
Defined.

Lemma fanin_ends_clean_witness :
  let e := mkParEnv (fun k => Z.of_nat k) 7 in
  exists counts,
    worker_counts (R := Lcg.lib) 10 3 e = Done counts
    /\ (exists n s,
          Fanin.run n (Fanin.Running (Fanin.init counts 3)) (Fanin.Running s)
          /\ Fanin.ranging s = false)
    /\ forall n s,
         Fanin.run n (Fanin.Running (Fanin.init counts 3)) (Fanin.Running s) ->
         Fanin.ranging s = false ->
         n = (3 * Z.to_nat 3 + 2)%nat
         /\ Fanin.unsent s = [] /\ Fanin.undone s = O /\ Fanin.buf s = []
         /\ Fanin.closed s = true
         /\ forall c, ~ Fanin.step (Fanin.Running s) c.
Proof.
  intro e.
  apply (fanin_ends_clean (R := Lcg.lib) 10 3 e); rewrite max_int_value; lia.
Defined.
